(** * Verification of the parkit-backend discovery engine

    Shallow embedding of [src/src/worker/ticketScraper.ts],
    [src/src/tickets/types.ts] and the OCR service
    ([src/unnamed/part_002], [extractGpsFromImageUrl]). *)

From Stdlib Require Import ZArith String Ascii List Bool Lia QArith Sorted.
From Stdlib Require Import Numbers.DecimalString Numbers.DecimalPos.
Import ListNotations.

Open Scope string_scope.
Open Scope list_scope.
Open Scope Z_scope.

(* ================================================================== *)
(** ** Character classes and small string helpers *)

Definition is_digit (c : ascii) : bool :=
  let n := nat_of_ascii c in (48 <=? n)%nat && (n <=? 57)%nat.

Definition is_letter (c : ascii) : bool :=
  let n := nat_of_ascii c in
  ((65 <=? n)%nat && (n <=? 90)%nat) || ((97 <=? n)%nat && (n <=? 122)%nat).

Fixpoint all_chars (p : ascii -> bool) (s : string) : bool :=
  match s with
  | EmptyString => true
  | String c s' => p c && all_chars p s'
  end.

(** [s ++ t] on strings (kept apart from list append). *)
Definition sapp (s t : string) : string := String.append s t.

Definition digit_value (c : ascii) : Z := Z.of_nat (nat_of_ascii c) - 48.

(** Mathematical value of a string of decimal digits. *)
Fixpoint digits_value_acc (acc : Z) (s : string) : Z :=
  match s with
  | EmptyString => acc
  | String c s' => digits_value_acc (acc * 10 + digit_value c) s'
  end.

Definition digits_value (s : string) : Z := digits_value_acc 0 s.

(** Decimal rendering of an integer (no sign for non-negative values). *)
Definition Z_to_string (z : Z) : string :=
  NilEmpty.string_of_int (Z.to_int z).

Fixpoint repeat_char (c : ascii) (n : nat) : string :=
  match n with
  | O => EmptyString
  | S n' => String c (repeat_char c n')
  end.

(** [s.padStart(width, '0')]. *)
Definition padStart0 (s : string) (width : nat) : string :=
  if (width <=? String.length s)%nat then s
  else sapp (repeat_char "0"%char (width - String.length s)) s.

(* ================================================================== *)
(** ** JavaScript numbers on the integers the sequencer produces

    [parseInt(numeric, 10)] and [nextNum.toString()] go through IEEE
    binary64.  The sequencer only ever handles non-negative integers, so a
    JS number is either a finite integer or [Infinity]. *)

Inductive JsNum := Finite (z : Z) | Infinity.

(** Round-to-nearest, ties-to-even, of a non-negative integer to binary64. *)
Definition round_binary64 (z : Z) : JsNum :=
  if z <? 2 ^ 53 then Finite z
  else
    let e := Z.log2 z - 52 in
    let q := z / 2 ^ e in
    let r := z mod 2 ^ e in
    let h := 2 ^ (e - 1) in
    let q' := if r <? h then q
              else if h <? r then q + 1
              else if Z.even q then q else q + 1 in
    let v := q' * 2 ^ e in
    if v <? 2 ^ 1024 then Finite v else Infinity.

(** [parseInt(numeric, 10)] for a non-empty string of decimal digits. *)
Definition parseInt10 (numeric : string) : JsNum :=
  round_binary64 (digits_value numeric).

(** [x + 1] in binary64. *)
Definition js_add1 (x : JsNum) : JsNum :=
  match x with
  | Finite z => round_binary64 (z + 1)
  | Infinity => Infinity
  end.

Definition roundtrips (v w : Z) : bool :=
  match round_binary64 w with
  | Finite u => u =? v
  | Infinity => false
  end.

(** Number::toString, step 5 of ECMA-262: among the multiples of [p]
    surrounding [v], the one converting back to [v], closest to [v]
    (ties: even significand). *)
Definition closest_roundtrip (v p : Z) : option Z :=
  let s0 := v / p in
  let lo := s0 * p in
  let hi := (s0 + 1) * p in
  match roundtrips v lo, roundtrips v hi with
  | true, true =>
      if v - lo <? hi - v then Some lo
      else if hi - v <? v - lo then Some hi
      else if Z.even s0 then Some lo else Some hi
  | true, false => Some lo
  | false, true => Some hi
  | false, false => None
  end.

(** Fewest significant digits first: try [p = 10^j] for [j] descending. *)
Fixpoint shortest_digits (v : Z) (j : nat) : Z :=
  match closest_roundtrip v (10 ^ Z.of_nat j) with
  | Some w => w
  | None =>
      match j with
      | O => v
      | S j' => shortest_digits v j'
      end
  end.

Fixpoint strip_trailing_zeros_fuel (fuel : nat) (w : Z) : Z :=
  match fuel with
  | O => w
  | S f => if (w mod 10 =? 0) && (0 <? w) then strip_trailing_zeros_fuel f (w / 10) else w
  end.

(** Exponential form [d.ddde+n] used for values of at least [10^21]. *)
Definition exponential_string (w : Z) : string :=
  let n := String.length (Z_to_string w) in
  let s := Z_to_string (strip_trailing_zeros_fuel n w) in
  let mant :=
    match s with
    | String d EmptyString => String d EmptyString
    | String d rest => String d (String "."%char rest)
    | EmptyString => EmptyString
    end in
  sapp mant (sapp "e+" (Z_to_string (Z.of_nat n - 1))).

Definition js_toString (x : JsNum) : string :=
  match x with
  | Infinity => "Infinity"
  | Finite v =>
      if v =? 0 then "0"
      else
        let L := String.length (Z_to_string v) in
        let w := shortest_digits v (L - 1) in
        if w <? 10 ^ 21 then Z_to_string w else exponential_string w
  end.

(* ================================================================== *)
(** ** Identifier sequencer: [incrementTicketId] *)

Fixpoint split_letters (s : string) : string * string :=
  match s with
  | String c s' =>
      if is_letter c then let (p, r) := split_letters s' in (String c p, r)
      else (EmptyString, s)
  | EmptyString => (EmptyString, EmptyString)
  end.

(** The regular expression of the source: an optional run of ASCII letters
    followed by one or more ASCII digits, anchored at both ends.  Letters and digits are
    disjoint classes, so the greedy prefix never gives characters back. *)
Definition match_ticket_id (ticketId : string) : option (string * string) :=
  let (prefix, numeric) := split_letters ticketId in
  match numeric with
  | EmptyString => None
  | _ => if all_chars is_digit numeric then Some (prefix, numeric) else None
  end.

Definition incrementTicketId (ticketId : string) : string :=
  match match_ticket_id ticketId with
  | None => sapp ticketId "1"
  | Some (prefix, numeric) =>
      let width := String.length numeric in
      let nextNum := js_add1 (parseInt10 numeric) in
      let nextNumStr := padStart0 (js_toString nextNum) width in
      sapp prefix nextNumStr
  end.

(* ================================================================== *)
(** ** Evidence GPS extraction: the text step of [extractGpsFromImageUrl]

    The image is fetched, cropped, binarised and recognised first; the
    claims concern what happens to the recognised text [rawText], which is
    modelled here as an ASCII string. *)

Definition is_space (c : ascii) : bool :=
  let n := nat_of_ascii c in (n =? 32)%nat || ((9 <=? n)%nat && (n <=? 13)%nat).

(** [[-\d.]]: the character class of both capture groups. *)
Definition in_coord_class (c : ascii) : bool :=
  is_digit c || Ascii.eqb c "-"%char || Ascii.eqb c "."%char.

Definition to_lower (c : ascii) : ascii :=
  let n := nat_of_ascii c in
  if (65 <=? n)%nat && (n <=? 90)%nat then ascii_of_nat (n + 32) else c.

Fixpoint skip_while (p : ascii -> bool) (s : string) : string :=
  match s with
  | String c s' => if p c then skip_while p s' else s
  | EmptyString => EmptyString
  end.

Fixpoint take_while (p : ascii -> bool) (s : string) : string * string :=
  match s with
  | String c s' =>
      if p c then let (t, r) := take_while p s' in (String c t, r)
      else (EmptyString, s)
  | EmptyString => (EmptyString, EmptyString)
  end.

(** Case-insensitive literal at the head of [s]; [pat] is lower case. *)
Fixpoint ci_literal (pat s : string) : option string :=
  match pat, s with
  | EmptyString, _ => Some s
  | String p pat', String c s' =>
      if Ascii.eqb (to_lower c) p then ci_literal pat' s' else None
  | String _ _, EmptyString => None
  end.

(** One attempt of [/Lat:\s*([-\d.]+)\s*Lng:\s*([-\d.]+)/i] at the head of
    [s].  Whitespace, the group class and the letter [L] are pairwise
    disjoint, so each greedy quantifier takes its maximal run and
    backtracking never yields another match. *)
Definition coords_match_at (s : string) : option (string * string) :=
  match ci_literal "lat:" s with
  | None => None
  | Some r1 =>
      let (g1, r2) := take_while in_coord_class (skip_while is_space r1) in
      match g1 with
      | EmptyString => None
      | _ =>
          match ci_literal "lng:" (skip_while is_space r2) with
          | None => None
          | Some r3 =>
              let (g2, _) := take_while in_coord_class (skip_while is_space r3) in
              match g2 with
              | EmptyString => None
              | _ => Some (g1, g2)
              end
          end
      end
  end.

(** [RegExp.prototype.exec]: the leftmost position where the pattern matches. *)
Fixpoint coords_exec (s : string) : option (string * string) :=
  match coords_match_at s with
  | Some m => Some m
  | None =>
      match s with
      | EmptyString => None
      | String _ s' => coords_exec s'
      end
  end.

(** [parseFloat] on the alphabet of the capture groups: an optional sign,
    then the longest prefix of the form [digits [. digits]] or [. digits];
    [None] is [NaN].  The value is the exact decimal (its rounding to
    binary64 is not modelled). *)
Definition parseFloat (g : string) : option Q :=
  let (neg, r) :=
    match g with
    | String c r' =>
        if Ascii.eqb c "-"%char then (true, r')
        else if Ascii.eqb c "+"%char then (false, r') else (false, g)
    | EmptyString => (false, g)
    end in
  let (ip, r1) := take_while is_digit r in
  let fp :=
    match r1 with
    | String c r2 => if Ascii.eqb c "."%char then fst (take_while is_digit r2) else EmptyString
    | EmptyString => EmptyString
    end in
  match ip, fp with
  | EmptyString, EmptyString => None
  | _, _ =>
      let q := Qmake (digits_value (sapp ip fp))
                     (Z.to_pos (10 ^ Z.of_nat (String.length fp))) in
      Some (if neg then Qopp q else q)
  end.

Record OcrResult := mkOcrResult { ocr_lat : Q; ocr_lng : Q; rawText : string }.

(** Lines 73-93 of [extractGpsFromImageUrl]. *)
Definition gps_from_text (rawText : string) : option OcrResult :=
  match coords_exec rawText with
  | None => None
  | Some (m1, m2) =>
      match parseFloat m1, parseFloat m2 with
      | Some lat, Some lng => Some (mkOcrResult lat lng rawText)
      | _, _ => None
      end
  end.

(** The pattern the specification describes, [Lat: <signed decimal> Lng:
    <signed decimal>], with a signed decimal read as an optional minus
    sign, digits, and an optional fractional part of digits. *)
Definition spec_signed_decimal (g : string) : bool :=
  let r := match g with
           | String c r' => if Ascii.eqb c "-"%char then r' else g
           | EmptyString => g
           end in
  let (ip, r1) := take_while is_digit r in
  match ip with
  | EmptyString => false
  | _ =>
      match r1 with
      | EmptyString => true
      | String c r2 =>
          Ascii.eqb c "."%char &&
          match r2 with EmptyString => false | _ => all_chars is_digit r2 end
      end
  end.

Fixpoint spec_coords_pattern_in (s : string) : bool :=
  match coords_match_at s with
  | Some (g1, g2) => spec_signed_decimal g1 && spec_signed_decimal g2
  | None => false
  end ||
  match s with
  | EmptyString => false
  | String _ s' => spec_coords_pattern_in s'
  end.

(* ================================================================== *)
(** ** Data model: [src/src/tickets/types.ts] and the Prisma [Ticket] *)

Inductive TicketSearchResult :=
  ACCESSIBLE | CAPTCHA | CLOSED | FAILED_CHALLENGE | NO_RESULTS.

Definition TicketSearchResult_eqb (a b : TicketSearchResult) : bool :=
  match a, b with
  | ACCESSIBLE, ACCESSIBLE | CAPTCHA, CAPTCHA | CLOSED, CLOSED
  | FAILED_CHALLENGE, FAILED_CHALLENGE | NO_RESULTS, NO_RESULTS => true
  | _, _ => false
  end.

(** A JavaScript [Date]: milliseconds since the epoch, or an Invalid Date
    (what [new Date(s)] gives for a string that is not a date). *)
Inductive JsDate := ValidDate (ms : Z) | InvalidDate.

(** [date >= other] on dates compares their [valueOf()]; an Invalid Date's is
    [NaN], so the comparison is false. *)
Definition date_ge (d : JsDate) (other : Z) : bool :=
  match d with
  | ValidDate ms => other <=? ms
  | InvalidDate => false
  end.

Record Ticket := mkTicket {
  ticketId : string;
  licensePlateNumber : option string;
  licensePlateState : option string;
  timestamp : JsDate;
  lat : option Q;
  lng : option Q;
  streetLocation : option string }.

Record TicketSearchResponse := mkResponse {
  result : TicketSearchResult;
  ticket : option Ticket }.

Module TicketMessage.
Definition REMITTANCE := "that are able to be remitted today".
Definition CLOSED := "The ticket number you are searching is in a Closed".
Definition FAILED_CHALLENGE := "Failed Challenge. Please Try Again.".
Definition NO_RESULTS := "No results found that match your search".
End TicketMessage.

(** [String.prototype.includes]. *)
Fixpoint includes (s sub : string) : bool :=
  String.prefix sub s ||
  match s with
  | EmptyString => false
  | String _ s' => includes s' sub
  end.

(* ================================================================== *)
(** ** Response classifier: [getTicketDetails], [getTicketSearchResponse] *)

(** What the result card keyed by a ticket number shows, once located and
    its header found ([getTicketDetails] returns [null] otherwise).
    [card_timestamp] is [new Date(timestampText ?? '')] for the header's
    third span: [InvalidDate] when the span is missing or its text is not a
    date.  [card_ocr] is the value [extractGpsFromImageUrl] resolves to for
    the evidence image; the cards on which it throws (failed download,
    undecodable image, missing metadata), making the classifier throw, are
    not represented. *)
Record CardFields := mkCardFields {
  card_plate : option string;
  card_plate_state : option string;
  card_timestamp : JsDate;
  card_ocr : option OcrResult;
  card_street : option string }.

(** The page as the classifier observes it. *)
Record Snapshot := mkSnapshot {
  bodyText : option string;                     (* page.textContent('body') *)
  captchaVisible : bool;                        (* isVisible('#ticket-search-captcha') *)
  ticketCard : string -> option CardFields }.

Definition getTicketDetails (ticketId : string) (page : Snapshot) : option Ticket :=
  match ticketCard page ticketId with
  | None => None
  | Some cf =>
      Some (mkTicket ticketId (card_plate cf) (card_plate_state cf) (card_timestamp cf)
                     (option_map ocr_lat (card_ocr cf)) (option_map ocr_lng (card_ocr cf))
                     (card_street cf))
  end.

Definition getTicketSearchResponse (ticketId : string) (page : Snapshot)
  : TicketSearchResponse :=
  match bodyText page with
  | None | Some EmptyString => mkResponse NO_RESULTS None
  | Some textContent =>
      if captchaVisible page then mkResponse CAPTCHA None
      else if includes textContent TicketMessage.FAILED_CHALLENGE then
        mkResponse FAILED_CHALLENGE None
      else if includes textContent TicketMessage.REMITTANCE
              || includes textContent TicketMessage.CLOSED then
        mkResponse CLOSED None
      else if includes textContent TicketMessage.NO_RESULTS then
        mkResponse NO_RESULTS None
      else
        match getTicketDetails ticketId page with
        | None => mkResponse NO_RESULTS None
        | Some t => mkResponse ACCESSIBLE (Some t)
        end
  end.

(* ================================================================== *)
(** ** Backoff list ([BACKOFF_LIST] in [src/src/tickets/types.ts]) *)

#[local] Set Warnings "-register-all".
Inductive BackoffNode := mkBackoffNode { backoff : Z; next : option BackoffNode }.

Definition BACKOFF_LIST : BackoffNode :=
  mkBackoffNode 10000 (Some (mkBackoffNode 30000 (Some (mkBackoffNode 60000 None)))).

(** [if (backoffNode.next != null) backoffNode = backoffNode.next]. *)
Definition advance_backoff (node : BackoffNode) : BackoffNode :=
  match next node with
  | Some n => n
  | None => node
  end.

(** The durations of a list, in order. *)
Fixpoint backoff_values (node : BackoffNode) : list Z :=
  backoff node :: match next node with
                  | Some n => backoff_values n
                  | None => []
                  end.

Fixpoint last_backoff (node : BackoffNode) : Z :=
  match next node with
  | Some n => last_backoff n
  | None => backoff node
  end.

(** The durations slept by [k] successive passes of the wait loop. *)
Fixpoint consumed (node : BackoffNode) (k : nat) : list Z :=
  match k with
  | O => []
  | S k' => backoff node :: consumed (advance_backoff node) k'
  end.

(* ================================================================== *)
(** ** Durable store (Prisma) *)

Record ScraperState := mkScraperState {
  ss_id : Z;
  lastCheckedId : string;
  status : string }.

(** The [ScraperState] table holds at most the row with id 1; [Ticket]
    rows are kept in insertion order, keyed by [ticketId]. *)
Record DB := mkDB {
  scraperStateRow : option ScraperState;
  ticketRows : list Ticket }.

(* ================================================================== *)
(** ** The watcher's effects

    A computation threads a [World]: the store, the number of searches and
    CAPTCHA-solving calls made so far (they index the environment's
    answers), the clock, and the trace of observable actions.  It ends in a
    value, a thrown error, or [Pending] when its fuel runs out (the wait
    loop of the source does not terminate on its own). *)

Inductive Event :=
  | EvNavigate
  | EvReload
  | EvSearch (id : string) (resp : TicketSearchResponse)
  | EvAttempt (n : nat) (r : TicketSearchResult)
  | EvSolve (solved : bool)
  | EvSleep (ms : Z)
  | EvLog (msg : string)
  | EvNotify (t : Ticket).

Record World := mkWorld {
  w_db : DB;
  w_searches : nat;
  w_solves : nat;
  w_clock : Z;
  w_trace : list Event }.

Inductive Outcome (A : Type) := Ok (a : A) | Thrown (msg : string) | Pending.
Arguments Ok {A} a.
Arguments Thrown {A} msg.
Arguments Pending {A}.

Definition M (A : Type) := World -> Outcome A * World.

Definition ret {A} (a : A) : M A := fun w => (Ok a, w).

Definition bind {A B} (m : M A) (k : A -> M B) : M B :=
  fun w =>
    match m w with
    | (Ok a, w') => k a w'
    | (Thrown e, w') => (Thrown e, w')
    | (Pending, w') => (Pending, w')
    end.

Notation "x <- m ;; k" := (bind m (fun x => k))
  (at level 61, m at next level, right associativity).
Notation "m ;;; k" := (bind m (fun _ => k)) (at level 61, right associativity).

Definition throw {A} (msg : string) : M A := fun w => (Thrown msg, w).

(** [try { body } catch { handler }]. *)
Definition try_catch {A} (body : M A) (handler : string -> M A) : M A :=
  fun w =>
    match body w with
    | (Thrown e, w') => handler e w'
    | r => r
    end.

Definition tell (e : Event) : M unit :=
  fun w => (Ok tt, mkWorld (w_db w) (w_searches w) (w_solves w) (w_clock w)
                            (w_trace w ++ [e])).

Definition get_db : M DB := fun w => (Ok (w_db w), w).

Definition put_db (d : DB) : M unit :=
  fun w => (Ok tt, mkWorld d (w_searches w) (w_solves w) (w_clock w) (w_trace w)).

(** [new Date()]. *)
Definition get_now : M Z := fun w => (Ok (w_clock w), w).

Definition sleep (ms : Z) : M unit :=
  fun w => (Ok tt, mkWorld (w_db w) (w_searches w) (w_solves w) (w_clock w + ms)
                            (w_trace w ++ [EvSleep ms])).

(** JavaScript truthiness of an optional string. *)
Definition truthy (o : option string) : bool :=
  match o with
  | Some s => negb (String.eqb s "")
  | None => false
  end.

Definition DEFAULT_START_TICKET_ID := "100000057470".

(** [prisma.scraperState.findUnique] / [create] on id 1. *)
Definition getOrCreateScraperState : M ScraperState :=
  d <- get_db ;;
  match scraperStateRow d with
  | Some state => ret state
  | None =>
      let state := mkScraperState 1 DEFAULT_START_TICKET_ID "initialized" in
      put_db (mkDB (Some state) (ticketRows d)) ;;; ret state
  end.

(** The update written by [updateScraperState]: only truthy fields. *)
Definition apply_scraper_update (st : ScraperState)
    (newLastCheckedId newStatus : option string) : ScraperState :=
  mkScraperState (ss_id st)
    (match newLastCheckedId with
     | Some v => if truthy newLastCheckedId then v else lastCheckedId st
     | None => lastCheckedId st
     end)
    (match newStatus with
     | Some v => if truthy newStatus then v else status st
     | None => status st
     end).

(** [prisma.scraperState.update({ where: { id: 1 }, ... })] throws when the
    row does not exist. *)
Definition updateScraperState (newLastCheckedId newStatus : option string) : M unit :=
  d <- get_db ;;
  match scraperStateRow d with
  | None => throw "Record to update not found."
  | Some st =>
      put_db (mkDB (Some (apply_scraper_update st newLastCheckedId newStatus))
                   (ticketRows d))
  end.

Definition find_ticket (id : string) (rows : list Ticket) : option Ticket :=
  find (fun t => String.eqb (ticketId t) id) rows.

(** [prisma.ticket.findUnique({ where: { ticketId } })]. *)
Definition findUniqueTicket (id : string) : M (option Ticket) :=
  d <- get_db ;; ret (find_ticket id (ticketRows d)).

(** [prisma.ticket.create]: the data is validated first (an Invalid Date
    for the [DateTime] column is rejected), then [ticketId] is the primary
    key. *)
Definition createTicket (t : Ticket) : M Ticket :=
  match timestamp t with
  | InvalidDate => throw "Invalid value for argument timestamp: Provided Date object is invalid."
  | ValidDate _ =>
      d <- get_db ;;
      match find_ticket (ticketId t) (ticketRows d) with
      | Some _ => throw "Unique constraint failed on the fields: (ticketId)"
      | None => put_db (mkDB (scraperStateRow d) (ticketRows d ++ [t])) ;;; ret t
      end
  end.

(** Lines 426-440 of [startTicketWatcher]. *)
Definition persistTicket (foundTicket : Ticket) : M Ticket :=
  existing <- findUniqueTicket (ticketId foundTicket) ;;
  match existing with
  | Some t => ret t
  | None => createTicket foundTicket
  end.

(** The call at line 452 of [startTicketWatcher], which the source leaves
    commented out (and whose module it does not import). *)
Definition emitNewTicket (t : Ticket) : M unit := tell (EvNotify t).

Section Watcher.

(** The page shown after the [n]-th search for an id, the answer of the
    [n]-th CAPTCHA-solving call, and the configured API key. *)
Variable page_after : nat -> string -> Snapshot.
Variable solve_answer : nat -> bool.
Variable TWOCAPTCHA_API_KEY : string.

(** The browser's own failures are not modelled: [page.reload] and the
    [waitForSelector] calls of [submitTicketSearch] time out after 5 s in
    the source, and [getTicketDetails] propagates the errors of
    [extractGpsFromImageUrl]; here a reload and a search always complete. *)
Definition page_reload : M unit := tell EvReload.

(** [submitTicketSearch(page, id)] followed by
    [getTicketSearchResponse(id, page)]. *)
Definition submit_and_classify (ticketId : string) : M TicketSearchResponse :=
  fun w =>
    let r := getTicketSearchResponse ticketId (page_after (w_searches w) ticketId) in
    (Ok r, mkWorld (w_db w) (S (w_searches w)) (w_solves w) (w_clock w)
                   (w_trace w ++ [EvSearch ticketId r])).

Definition solveCaptcha : M bool :=
  fun w =>
    let b := solve_answer (w_solves w) in
    (Ok b, mkWorld (w_db w) (w_searches w) (S (w_solves w)) (w_clock w)
                   (w_trace w ++ [EvSolve b])).

Definition is_challenge (r : TicketSearchResponse) : bool :=
  TicketSearchResult_eqb (result r) CAPTCHA
  || TicketSearchResult_eqb (result r) FAILED_CHALLENGE.

Definition maxCaptchaAttempts : nat := 5.

(** The body of the CAPTCHA branch up to the reload: [Some r] when the
    search after a successful solve leaves the challenge ([break]). *)
Definition try_solver (ticketId : string) : M (option TicketSearchResponse) :=
  if truthy (Some TWOCAPTCHA_API_KEY) then
    solved <- solveCaptcha ;;
    if solved then
      r <- submit_and_classify ticketId ;;
      if is_challenge r then ret None else ret (Some r)
    else ret None
  else ret None.

(** The [while] loop of [searchForTicket]; the fuel is the number of
    iterations left before [captchaAttempts] reaches the bound. *)
Fixpoint challenge_loop (fuel : nat) (ticketId : string) (captchaAttempts : nat)
    (searchResponse : TicketSearchResponse) : M TicketSearchResponse :=
  match fuel with
  | O => ret searchResponse
  | S fuel' =>
      if is_challenge searchResponse && (captchaAttempts <? maxCaptchaAttempts)%nat then
        let captchaAttempts := S captchaAttempts in
        tell (EvAttempt captchaAttempts (result searchResponse)) ;;;
        if TicketSearchResult_eqb (result searchResponse) FAILED_CHALLENGE then
          page_reload ;;;
          r <- submit_and_classify ticketId ;;
          challenge_loop fuel' ticketId captchaAttempts r
        else
          brk <- try_solver ticketId ;;
          match brk with
          | Some r => ret r
          | None =>
              page_reload ;;;
              r <- submit_and_classify ticketId ;;
              challenge_loop fuel' ticketId captchaAttempts r
          end
      else ret searchResponse
  end.

Definition searchForTicket (ticketId : string) : M TicketSearchResponse :=
  searchResponse <- submit_and_classify ticketId ;;
  challenge_loop maxCaptchaAttempts ticketId 0 searchResponse.

(** The inner [while (true)] of [startTicketWatcher]: wait for the id to
    leave [NO_RESULTS], sleeping along the backoff list. *)
Fixpoint await_ticket (fuel : nat) (ticketId : string) (backoffNode : BackoffNode)
    : M (option Ticket) :=
  match fuel with
  | O => fun w => (Pending, w)
  | S fuel' =>
      searchResponse <- searchForTicket ticketId ;;
      if negb (TicketSearchResult_eqb (result searchResponse) NO_RESULTS) then
        ret (ticket searchResponse)
      else
        sleep (backoff backoffNode) ;;;
        await_ticket fuel' ticketId (advance_backoff backoffNode)
  end.

(** One pass of the outer [while (true)] of [startTicketWatcher], from the
    current id to the id of the next pass. *)
Definition watcher_iteration (fuel : nat) (currentTicketId : string) : M string :=
  try_catch
    (page_reload ;;;
     updateScraperState None (Some (sapp "checking " currentTicketId)) ;;;
     foundTicket <- await_ticket fuel currentTicketId BACKOFF_LIST ;;
     match foundTicket with
     | None =>
         updateScraperState None (Some "no_results") ;;;
         sleep 2000 ;;;
         ret (incrementTicketId currentTicketId)
     | Some ft =>
         t <- persistTicket ft ;;
         updateScraperState (Some currentTicketId) (Some "ok") ;;;
         now <- get_now ;;
         let tenMinutesAgo := now - 10 * 60 * 1000 in
         (if date_ge (timestamp t) tenMinutesAgo
          then tell (EvLog "Broadcasted to SSE clients")
          else tell (EvLog "Ticket timestamp is older than 10 minutes, skipping SSE broadcast")) ;;;
         let nextTicketId := incrementTicketId currentTicketId in
         sleep 2000 ;;;
         ret nextTicketId
     end)
    (fun _ =>
       updateScraperState None (Some "error") ;;;
       sleep 5000 ;;;
       ret currentTicketId).

Fixpoint watcher_loop (passes fuel : nat) (currentTicketId : string) : M unit :=
  match passes with
  | O => ret tt
  | S passes' =>
      nextTicketId <- watcher_iteration fuel currentTicketId ;;
      watcher_loop passes' fuel nextTicketId
  end.

(** [startTicketWatcher], run for a number of passes of its outer loop. *)
Definition startTicketWatcher (passes fuel : nat) : M unit :=
  state <- getOrCreateScraperState ;;
  tell EvNavigate ;;;
  watcher_loop passes fuel (lastCheckedId state).

End Watcher.

(* ================================================================== *)
(** ** The challenge-resolution policy in the words of the specification

    [spec_resolution id configured n r l rf]: starting from outcome [r]
    after [n] attempts, the resolver performs the actions [l] and returns
    [rf].  A [FAILED_CHALLENGE] attempt reloads and searches again with no
    solving; a [CAPTCHA] attempt asks the solver only when it is configured
    and otherwise reloads and searches again; the resolver stops when the
    outcome is neither challenge or after 5 attempts, returning the last
    outcome it saw. *)
Inductive spec_resolution (id : string) (configured : bool)
  : nat -> TicketSearchResponse -> list Event -> TicketSearchResponse -> Prop :=
  | res_stop n r :
      is_challenge r = false \/ (5 <= n)%nat ->
      spec_resolution id configured n r [] r
  | res_failed n r r' l rf :
      result r = FAILED_CHALLENGE -> (n < 5)%nat ->
      spec_resolution id configured (S n) r' l rf ->
      spec_resolution id configured n r
        (EvAttempt (S n) FAILED_CHALLENGE :: EvReload :: EvSearch id r' :: l) rf
  | res_captcha_reload n r r' l rf :
      result r = CAPTCHA -> (n < 5)%nat -> configured = false ->
      spec_resolution id configured (S n) r' l rf ->
      spec_resolution id configured n r
        (EvAttempt (S n) CAPTCHA :: EvReload :: EvSearch id r' :: l) rf
  | res_captcha_unsolved n r r' l rf :
      result r = CAPTCHA -> (n < 5)%nat -> configured = true ->
      spec_resolution id configured (S n) r' l rf ->
      spec_resolution id configured n r
        (EvAttempt (S n) CAPTCHA :: EvSolve false :: EvReload :: EvSearch id r' :: l) rf
  | res_captcha_solved n r r' :
      result r = CAPTCHA -> (n < 5)%nat -> configured = true ->
      is_challenge r' = false ->
      spec_resolution id configured n r
        [EvAttempt (S n) CAPTCHA; EvSolve true; EvSearch id r'] r'
  | res_captcha_solved_again n r r' r'' l rf :
      result r = CAPTCHA -> (n < 5)%nat -> configured = true ->
      is_challenge r' = true ->
      spec_resolution id configured (S n) r'' l rf ->
      spec_resolution id configured n r
        (EvAttempt (S n) CAPTCHA :: EvSolve true :: EvSearch id r' :: EvReload
           :: EvSearch id r'' :: l) rf.

Definition attempts (tr : list Event) : nat :=
  length (flat_map (fun e => match e with EvAttempt n _ => [n] | _ => [] end) tr).

(** The outcome of the last search recorded in a trace. *)
Definition last_search (tr : list Event) : option TicketSearchResponse :=
  fold_left (fun acc e => match e with EvSearch _ r => Some r | _ => acc end) tr None.

(* ================================================================== *)
(** ** Concrete pages and stores used by the witnesses *)

Definition text_page (text : string) : Snapshot :=
  mkSnapshot (Some text) false (fun _ => None).

Definition captcha_page (text : string) : Snapshot :=
  mkSnapshot (Some text) true (fun _ => None).

(** A results page showing the card of [id], issued at [ts]. *)
Definition card_page (id : string) (ts : Z) : Snapshot :=
  mkSnapshot (Some "Ticket Search Results") false
    (fun i => if String.eqb i id
              then Some (mkCardFields (Some "ABC1234") (Some "NY") (ValidDate ts) None None)
              else None).

(** A results page showing the card of [id] whose header's timestamp span
    reads "Pending" (not a date). *)
Definition undated_card_page : Snapshot :=
  mkSnapshot (Some "Ticket Search Results") false
    (fun i => if String.eqb i "cab150"
              then Some (mkCardFields (Some "ABC1234") (Some "NY") InvalidDate None None)
              else None).

Definition closed_page : Snapshot :=
  text_page "The ticket number you are searching is in a Closed - Paid Status.".

Definition start_world (d : DB) (now : Z) : World := mkWorld d 0 0 now [].

Definition cursor_db (lastId : string) (tickets : list Ticket) : DB :=
  mkDB (Some (mkScraperState 1 lastId "ok")) tickets.

(** The ids probed by the searches of a trace, in order. *)
Definition probes (tr : list Event) : list string :=
  flat_map (fun e => match e with EvSearch id _ => [id] | _ => [] end) tr.

Definition sleeps_of (tr : list Event) : list Z :=
  flat_map (fun e => match e with EvSleep ms => [ms] | _ => [] end) tr.

Definition notifications (tr : list Event) : list Ticket :=
  flat_map (fun e => match e with EvNotify t => [t] | _ => [] end) tr.

(** The console lines of a trace, in order. *)
Definition logs (tr : list Event) : list string :=
  flat_map (fun e => match e with EvLog msg => [msg] | _ => [] end) tr.

(** A stored ticket, as [card_page] would produce it. *)
Definition sample_ticket (id : string) (ts : Z) : Ticket :=
  mkTicket id (Some "ABC1234") (Some "NY") (ValidDate ts) None None None.

(** Observations on runs *)

(** [emits m P]: from any world, [m] only appends to the trace, and the
    sleeps it appends satisfy [P]. *)
Definition emits {A} (m : M A) (P : list Z -> Prop) : Prop :=
  forall w, exists l, w_trace (snd (m w)) = w_trace w ++ l /\ P (sleeps_of l).

(** The pauses other than backoff waits: 2 s after a pass, 5 s after an
    error. *)
Definition pass_tail (s : list Z) : Prop := Forall (fun d => d = 2000 \/ d = 5000) s.

(** [starts_with m w pre]: run from [w], [m] appends [pre] first. *)
Definition starts_with {A} (m : M A) (w : World) (pre : list Event) : Prop :=
  exists l, w_trace (snd (m w)) = w_trace w ++ pre ++ l.

(** [db_fixed m]: [m] leaves the store as it found it, whatever its
    outcome. *)
Definition db_fixed {A} (m : M A) : Prop := forall w, w_db (snd (m w)) = w_db w.

(** [keeps R m]: whatever its outcome, [m] run from [w] ends in a world
    [w'] with [R w w']. *)
Definition keeps {A} (R : World -> World -> Prop) (m : M A) : Prop :=
  forall w, R w (snd (m w)).

(** [hoare P m Q]: run from a world satisfying [P], when [m] returns a
    value, that value and the final world satisfy [Q]. *)
Definition hoare {A} (P : World -> Prop) (m : M A) (Q : A -> World -> Prop) : Prop :=
  forall w, P w -> match m w with (Ok a, w') => Q a w' | _ => True end.

(** [nothrow P m]: run from a world satisfying [P], [m] does not end in a
    thrown error. *)
Definition nothrow {A} (P : World -> Prop) (m : M A) : Prop :=
  forall w, P w -> match fst (m w) with Thrown _ => False | _ => True end.

Definition ticket_ids (d : DB) : list string := map ticketId (ticketRows d).

(** The store only grows: ticket rows are appended, never removed or
    changed; unique ticket ids stay unique; the cursor row, once there,
    stays there with the same id. *)
Definition store_grows (w w' : World) : Prop :=
  (exists added, ticketRows (w_db w') = ticketRows (w_db w) ++ added) /\
  (NoDup (ticket_ids (w_db w)) -> NoDup (ticket_ids (w_db w'))) /\
  (forall st, scraperStateRow (w_db w) = Some st ->
     exists st', scraperStateRow (w_db w') = Some st' /\ ss_id st' = ss_id st).

(** Every ticket row added between [w] and [w'] has the id [cur]. *)
Definition adds_only (cur : string) (w w' : World) : Prop :=
  exists added, ticketRows (w_db w') = ticketRows (w_db w) ++ added /\
                Forall (fun t => ticketId t = cur) added.

(** The CAPTCHA-solving calls and the page reloads of a trace. *)
Definition solver_calls (tr : list Event) : nat :=
  length (flat_map (fun e => match e with EvSolve b => [b] | _ => [] end) tr).

Definition reloads (tr : list Event) : nat :=
  length (flat_map (fun e => match e with EvReload => [tt] | _ => [] end) tr).

(** The field an update writes when a later update follows an earlier one:
    the later value when truthy, the earlier one otherwise. *)
Definition later_truthy (later earlier : option string) : option string :=
  if truthy later then later else earlier.

(** The cursor row after a pass that completed: [no_results], or [ok] with
    the pass's id recorded when it is non-empty. *)
Definition pass_done_db (cur : string) (d : DB) : Prop :=
  exists st, scraperStateRow d = Some st /\
    (status st = "no_results" \/ (status st = "ok" /\ (cur <> "" -> lastCheckedId st = cur))).

(** A response carries a ticket exactly when it is [ACCESSIBLE], and that
    ticket is the one searched for, with both coordinates or neither. *)
Definition response_ok (id : string) (r : TicketSearchResponse) : Prop :=
  (result r = ACCESSIBLE <-> ticket r <> None) /\
  (forall t, ticket r = Some t -> ticketId t = id /\ (lat t = None <-> lng t = None)).

(* ================================================================== *)
(** ** Seed script ([main] of the database seed) *)

(** Console output is recorded as log events; [$disconnect] is not
    modelled. *)
Definition seed_main : M unit :=
  tell (EvLog "Starting seed...") ;;;
  d <- get_db ;;
  match scraperStateRow d with
  | None =>
      put_db (mkDB (Some (mkScraperState 1 "100000057470" "initialized"))
                   (ticketRows d)) ;;;
      tell (EvLog "✓ Initialized scraper state")
  | Some _ => tell (EvLog "✓ Scraper state already exists")
  end ;;;
  tell (EvLog "Seed completed!").

(* ================================================================== *)
(** * Properties *)

(** ** Identifier sequencer *)

Example inc_cab099 : incrementTicketId "cab099" = "cab100". Proof. reflexivity. Qed.
Example inc_099 : incrementTicketId "099" = "100". Proof. reflexivity. Qed.
Example inc_007 : incrementTicketId "007" = "008". Proof. reflexivity. Qed.
Example inc_empty : incrementTicketId "" = "1". Proof. reflexivity. Qed.
Example inc_big : incrementTicketId "9007199254740993" = "9007199254740992".
Proof. vm_compute. reflexivity. Qed.
Example inc_default : incrementTicketId "100000057470" = "100000057471".
Proof. vm_compute. reflexivity. Qed.
Example inc_huge : incrementTicketId "999999999999999999999" = "00000000000000001e+21".
Proof. vm_compute. reflexivity. Qed.

Lemma round_binary64_small (z : Z) : z < 2 ^ 53 -> round_binary64 z = Finite z.
Proof. intros H. unfold round_binary64. apply Z.ltb_lt in H. now rewrite H. Qed.

Lemma round_binary64_large (z : Z) :
  2 ^ 53 <= z ->
  round_binary64 z = Infinity \/ exists u, round_binary64 z = Finite u /\ 2 ^ 53 <= u.
Proof.
  intros Hz. unfold round_binary64.
  destruct (Z.ltb_spec z (2 ^ 53)) as [Hlt | _]; [lia |]. cbv zeta.
  assert (Hlog : 53 <= Z.log2 z).
  { rewrite <- (Z.log2_pow2 53) by lia. now apply Z.log2_le_mono. }
  set (e := Z.log2 z - 52).
  assert (He : 1 <= e) by (unfold e; lia).
  assert (Hpow : 2 ^ Z.log2 z = 2 ^ 52 * 2 ^ e).
  { rewrite <- Z.pow_add_r by lia. f_equal. unfold e. lia. }
  assert (Hpe : 0 < 2 ^ e) by (apply Z.pow_pos_nonneg; lia).
  assert (Hq : 2 ^ 52 <= z / 2 ^ e).
  { destruct (Z.log2_spec z) as [Hlo _]; [lia |].
    rewrite Hpow in Hlo.
    rewrite <- (Z.div_mul (2 ^ 52) (2 ^ e)) by lia.
    apply Z.div_le_mono; lia. }
  assert (H2e : 2 <= 2 ^ e).
  { replace 2 with (2 ^ 1) at 1 by reflexivity. apply Z.pow_le_mono_r; lia. }
  assert (H53 : 2 ^ 53 = 2 ^ 52 * 2) by reflexivity.
  repeat match goal with
         | |- context [if ?b then _ else _] => destruct b eqn:?
         end;
    first [ left; reflexivity
          | right; eexists; split; [reflexivity | nia] ].
Qed.

Lemma closest_roundtrip_ok (v p w : Z) :
  closest_roundtrip v p = Some w -> roundtrips v w = true.
Proof.
  unfold closest_roundtrip.
  destruct (roundtrips v (v / p * p)) eqn:Hlo, (roundtrips v ((v / p + 1) * p)) eqn:Hhi;
    repeat match goal with
           | |- context [if ?b then _ else _] => destruct b
           end;
    intros H; inversion H; subst; assumption.
Qed.

Lemma shortest_digits_ok (v : Z) (j : nat) :
  roundtrips v (shortest_digits v j) = true \/ shortest_digits v j = v.
Proof.
  induction j as [| j IH]; simpl;
    match goal with
    | |- context [closest_roundtrip v ?q] =>
        destruct (closest_roundtrip v q) eqn:Hc;
        [left; exact (closest_roundtrip_ok v q _ Hc) | auto]
    end.
Qed.

Lemma roundtrips_small (v w : Z) :
  v < 2 ^ 53 -> roundtrips v w = true -> w = v.
Proof.
  intros Hv. unfold roundtrips.
  destruct (Z.lt_ge_cases w (2 ^ 53)) as [Hw | Hw].
  - rewrite round_binary64_small by assumption. now rewrite Z.eqb_eq.
  - destruct (round_binary64_large w Hw) as [-> | [u [-> Hu]]]; [discriminate |].
    rewrite Z.eqb_eq. lia.
Qed.

Lemma js_toString_small (v : Z) :
  0 < v < 2 ^ 53 -> js_toString (Finite v) = Z_to_string v.
Proof.
  intros Hv. unfold js_toString.
  destruct (Z.eqb_spec v 0) as [H0 | _]; [lia |]. cbv zeta.
  set (w := shortest_digits v _).
  assert (Hw : w = v).
  { destruct (shortest_digits_ok v (String.length (Z_to_string v) - 1)) as [H | H];
      [apply roundtrips_small in H; [exact H | lia] | exact H]. }
  rewrite Hw.
  assert (H21 : 2 ^ 53 < 10 ^ 21) by (vm_compute; reflexivity).
  destruct (Z.ltb_spec v (10 ^ 21)); [reflexivity | lia].
Qed.

Lemma digit_not_letter (c : ascii) : is_digit c = true -> is_letter c = false.
Proof.
  unfold is_digit, is_letter. intros H.
  apply andb_true_iff in H as [H1 H2]. apply Nat.leb_le in H1, H2.
  destruct (Nat.leb_spec 65 (nat_of_ascii c)), (Nat.leb_spec (nat_of_ascii c) 90),
    (Nat.leb_spec 97 (nat_of_ascii c)), (Nat.leb_spec (nat_of_ascii c) 122);
    simpl; try reflexivity; lia.
Qed.

Lemma split_letters_app (prefix numeric : string) :
  all_chars is_letter prefix = true ->
  match numeric with EmptyString => True | String c _ => is_letter c = false end ->
  split_letters (sapp prefix numeric) = (prefix, numeric).
Proof.
  intros Hp Hn. induction prefix as [| c p IH]; simpl in *.
  - destruct numeric as [| c r]; simpl; [reflexivity | now rewrite Hn].
  - apply andb_true_iff in Hp as [Hc Hp]. rewrite Hc, (IH Hp). reflexivity.
Qed.

Lemma split_letters_spec (s p r : string) :
  split_letters s = (p, r) -> s = sapp p r /\ all_chars is_letter p = true.
Proof.
  revert p r. induction s as [| c s IH]; simpl; intros p r H.
  - inversion H; subst. split; reflexivity.
  - destruct (is_letter c) eqn:Hc.
    + destruct (split_letters s) as [p' r'] eqn:Hs. inversion H; subst.
      destruct (IH _ _ eq_refl) as [-> Hp']. simpl. rewrite Hc, Hp'. split; reflexivity.
    + inversion H; subst. split; reflexivity.
Qed.

Lemma match_ticket_id_app (prefix numeric : string) :
  all_chars is_letter prefix = true ->
  all_chars is_digit numeric = true ->
  numeric <> EmptyString ->
  match_ticket_id (sapp prefix numeric) = Some (prefix, numeric).
Proof.
  intros Hp Hd Hne. unfold match_ticket_id.
  rewrite split_letters_app; [| assumption |].
  - destruct numeric as [| c r]; [congruence |]. rewrite Hd. reflexivity.
  - destruct numeric as [| c r]; [exact I |].
    simpl in Hd. apply andb_true_iff in Hd as [Hc _]. now apply digit_not_letter.
Qed.

Lemma match_ticket_id_some (s prefix numeric : string) :
  match_ticket_id s = Some (prefix, numeric) ->
  s = sapp prefix numeric /\ all_chars is_letter prefix = true /\
  all_chars is_digit numeric = true /\ numeric <> EmptyString.
Proof.
  unfold match_ticket_id. destruct (split_letters s) as [p r] eqn:Hs.
  apply split_letters_spec in Hs as [-> Hp].
  destruct r as [| c r']; [discriminate |].
  destruct (all_chars is_digit (String c r')) eqn:Hd; [| discriminate].
  intros H; inversion H; subst. repeat split; try assumption. discriminate.
Qed.

Lemma digits_value_acc_nonneg (acc : Z) (s : string) :
  all_chars is_digit s = true -> 0 <= acc -> 0 <= digits_value_acc acc s.
Proof.
  revert acc. induction s as [| c s IH]; simpl; intros acc Hd Hacc; [assumption |].
  apply andb_true_iff in Hd as [Hc Hd]. apply IH; [assumption |].
  unfold is_digit in Hc. apply andb_true_iff in Hc as [H1 _]. apply Nat.leb_le in H1.
  unfold digit_value. lia.
Qed.

(** C5 (amended).  An identifier made of an optional ASCII-letter prefix
    and a non-empty run of digits whose value plus one stays below [2^53]
    (where binary64 integers are exact) is mapped to the same prefix
    followed by the incremented value, zero-padded on the left to at least
    the original digit width; any other identifier, the empty string
    included, gets the character "1" appended. *)
Theorem incrementTicketId_amended :
  (forall prefix numeric : string,
      all_chars is_letter prefix = true ->
      all_chars is_digit numeric = true ->
      numeric <> EmptyString ->
      digits_value numeric + 1 < 2 ^ 53 ->
      incrementTicketId (sapp prefix numeric) =
      sapp prefix (padStart0 (Z_to_string (digits_value numeric + 1))
                             (String.length numeric))) /\
  (forall ticketId : string,
      ~ (exists prefix numeric, ticketId = sapp prefix numeric /\
           all_chars is_letter prefix = true /\ all_chars is_digit numeric = true /\
           numeric <> EmptyString) ->
      incrementTicketId ticketId = sapp ticketId "1") /\
  incrementTicketId "cab099" = "cab100" /\ incrementTicketId "099" = "100" /\
  incrementTicketId "007" = "008" /\ incrementTicketId "" = "1".
Proof.
  split; [| split; [| repeat split; reflexivity]].
  - intros prefix numeric Hp Hd Hne Hbound.
    unfold incrementTicketId. rewrite match_ticket_id_app by assumption. cbv zeta.
    assert (H0 : 0 <= digits_value numeric)
      by (apply digits_value_acc_nonneg; [assumption | lia]).
    unfold parseInt10. rewrite round_binary64_small by lia. simpl js_add1.
    rewrite round_binary64_small by lia. rewrite js_toString_small by lia.
    reflexivity.
  - intros ticketId Hno. unfold incrementTicketId.
    destruct (match_ticket_id ticketId) as [[prefix numeric] |] eqn:Hm; [| reflexivity].
    exfalso. apply Hno. exists prefix, numeric. now apply match_ticket_id_some.
Qed.

Lemma incrementTicketId_amended_witness :
  incrementTicketId (sapp "cab" "099") =
  sapp "cab" (padStart0 (Z_to_string (digits_value "099" + 1)) 3).
Proof.
  apply (proj1 incrementTicketId_amended);
    [reflexivity | reflexivity | discriminate | vm_compute; reflexivity].
Defined.

(** C5 counterexample: above [2^53] the increment is performed in binary64
    and [incrementTicketId "9007199254740993"] is not the successor
    ["9007199254740994"] but ["9007199254740992"]. *)
Lemma incrementTicketId_counterexample :
  incrementTicketId "9007199254740993" <> "9007199254740994".
Proof. vm_compute. discriminate. Qed.

(** ** Response classifier *)

(** C2.  The classifier short-circuits in the order: empty or unreadable
    body text gives [NO_RESULTS]; a visible challenge gives [CAPTCHA]; the
    failed-challenge phrase gives [FAILED_CHALLENGE]; the remittance or
    closed phrase gives [CLOSED]; the no-results phrase gives [NO_RESULTS];
    otherwise a located card (with its header) for the expected id gives
    [ACCESSIBLE] with the candidate read from it, whatever its timestamp
    text (an Invalid Date when missing or not a date), and no card gives
    [NO_RESULTS].  A page showing the challenge and the no-results phrase
    is classified [CAPTCHA].  Snapshots on which the evidence image's GPS
    extraction throws are outside the statement. *)
Theorem getTicketSearchResponse_precedence :
  (forall id page,
      (bodyText page = None \/ bodyText page = Some EmptyString) ->
      getTicketSearchResponse id page = mkResponse NO_RESULTS None) /\
  (forall id page text,
      bodyText page = Some text -> text <> EmptyString ->
      (captchaVisible page = true ->
         getTicketSearchResponse id page = mkResponse CAPTCHA None) /\
      (captchaVisible page = false ->
       includes text TicketMessage.FAILED_CHALLENGE = true ->
         getTicketSearchResponse id page = mkResponse FAILED_CHALLENGE None) /\
      (captchaVisible page = false ->
       includes text TicketMessage.FAILED_CHALLENGE = false ->
       (includes text TicketMessage.REMITTANCE = true \/
        includes text TicketMessage.CLOSED = true) ->
         getTicketSearchResponse id page = mkResponse CLOSED None) /\
      (captchaVisible page = false ->
       includes text TicketMessage.FAILED_CHALLENGE = false ->
       includes text TicketMessage.REMITTANCE = false ->
       includes text TicketMessage.CLOSED = false ->
       includes text TicketMessage.NO_RESULTS = true ->
         getTicketSearchResponse id page = mkResponse NO_RESULTS None) /\
      (captchaVisible page = false ->
       includes text TicketMessage.FAILED_CHALLENGE = false ->
       includes text TicketMessage.REMITTANCE = false ->
       includes text TicketMessage.CLOSED = false ->
       includes text TicketMessage.NO_RESULTS = false ->
         getTicketSearchResponse id page =
         match getTicketDetails id page with
         | Some t => mkResponse ACCESSIBLE (Some t)
         | None => mkResponse NO_RESULTS None
         end)) /\
  (forall id page text,
      bodyText page = Some text ->
      captchaVisible page = true ->
      includes text TicketMessage.NO_RESULTS = true ->
      result (getTicketSearchResponse id page) = CAPTCHA) /\
  (forall id page,
      (ticketCard page id = None -> getTicketDetails id page = None) /\
      (forall cf, ticketCard page id = Some cf ->
         exists t, getTicketDetails id page = Some t /\
           ticketId t = id /\ timestamp t = card_timestamp cf)).
Proof.
  split; [| split; [| split]].
  - intros id page [H | H]; unfold getTicketSearchResponse; now rewrite H.
  - intros id page text Ht Hne.
    unfold getTicketSearchResponse. rewrite Ht.
    destruct text as [| c r]; [congruence |].
    split; [| split; [| split; [| split]]].
    + intros H1. now rewrite H1.
    + intros H1 H2. now rewrite H1, H2.
    + intros H1 H2 H3. rewrite H1, H2.
      destruct H3 as [-> | ->]; [reflexivity | now rewrite orb_true_r].
    + intros H1 H2 H3 H4 H5. now rewrite H1, H2, H3, H4, H5.
    + intros H1 H2 H3 H4 H5. rewrite H1, H2, H3, H4, H5. simpl.
      destruct (getTicketDetails _ _); reflexivity.
  - intros id page text Ht Hc Hn.
    unfold getTicketSearchResponse. rewrite Ht, Hc.
    destruct text as [| c r]; [discriminate Hn | reflexivity].
  - intros id page. unfold getTicketDetails. split.
    + intros H. now rewrite H.
    + intros cf H. rewrite H. eexists. split; [reflexivity |]. split; reflexivity.
Qed.

Lemma getTicketSearchResponse_precedence_witness :
  result (getTicketSearchResponse "cab150"
            (mkSnapshot (Some TicketMessage.NO_RESULTS) true (fun _ => None))) = CAPTCHA /\
  exists t,
    getTicketDetails "cab150" undated_card_page = Some t /\
    ticketId t = "cab150" /\ timestamp t = InvalidDate.
Proof.
  split.
  - apply (proj1 (proj2 (proj2 getTicketSearchResponse_precedence))) with
      (text := TicketMessage.NO_RESULTS); reflexivity.
  - apply (proj2 (proj2 (proj2 (proj2 getTicketSearchResponse_precedence)) "cab150" undated_card_page)
             (mkCardFields (Some "ABC1234") (Some "NY") InvalidDate None None)).
    reflexivity.
Defined.

(** A counterexample to C2's "failure to parse yields NoResults": a card
    whose timestamp text is not a date is still classified [ACCESSIBLE],
    with an Invalid Date as the candidate's timestamp. *)
Lemma getTicketSearchResponse_counterexample :
  getTicketSearchResponse "cab150" undated_card_page =
  mkResponse ACCESSIBLE
    (Some (mkTicket "cab150" (Some "ABC1234") (Some "NY") InvalidDate None None None)).
Proof. vm_compute. reflexivity. Qed.

(** ** Evidence GPS extraction *)

Example gps_overlay_example :
  gps_from_text "Lat: 42.4440 Lng: -76.5019" =
  Some (mkOcrResult (424440 # 10000) (-765019 # 10000) "Lat: 42.4440 Lng: -76.5019").
Proof. reflexivity. Qed.

(** C4 (amended).  The text step returns nothing when the text has no
    case-insensitive match of [Lat:\s*([-\d.]+)\s*Lng:\s*([-\d.]+)], or
    when a captured group has no numeric prefix ([parseFloat] is [NaN]);
    otherwise it returns [parseFloat] of both groups, i.e. their longest
    numeric prefixes, with the raw text.  A text without coordinates gives
    nothing, and ["Lat: 42.4440 Lng: -76.5019"] gives exactly 42.4440 and
    -76.5019 with the raw text. *)
Theorem gps_from_text_amended :
  (forall t, coords_exec t = None -> gps_from_text t = None) /\
  (forall t m1 m2,
      coords_exec t = Some (m1, m2) ->
      (parseFloat m1 = None \/ parseFloat m2 = None) ->
      gps_from_text t = None) /\
  (forall t m1 m2 la ln,
      coords_exec t = Some (m1, m2) ->
      parseFloat m1 = Some la -> parseFloat m2 = Some ln ->
      gps_from_text t = Some (mkOcrResult la ln t)) /\
  gps_from_text "CITY OF ITHACA 12/15/2025 10:38 AM" = None /\
  (exists r, gps_from_text "Lat: 42.4440 Lng: -76.5019" = Some r /\
             (ocr_lat r == 42.4440)%Q /\ (ocr_lng r == -76.5019)%Q /\
             rawText r = "Lat: 42.4440 Lng: -76.5019").
Proof.
  unfold gps_from_text. split; [| split; [| split; [| split]]].
  - intros t H. now rewrite H.
  - intros t m1 m2 H [Hp | Hp]; rewrite H, Hp; [reflexivity |].
    destruct (parseFloat m1); reflexivity.
  - intros t m1 m2 la ln H H1 H2. now rewrite H, H1, H2.
  - reflexivity.
  - eexists. split; [reflexivity |]. repeat split; reflexivity.
Qed.

Lemma gps_from_text_amended_witness :
  gps_from_text "Lat: 1.2.3 Lng: 4" = Some (mkOcrResult (12 # 10) (4 # 1) "Lat: 1.2.3 Lng: 4").
Proof.
  apply (proj1 (proj2 (proj2 gps_from_text_amended))) with
    (m1 := "1.2.3") (m2 := "4"); reflexivity.
Defined.

(** C4 counterexample: ["Lat: 1.2.3 Lng: 4"] does not contain the pattern
    [Lat: <signed decimal> Lng: <signed decimal>], yet the extraction
    returns a result (latitude 1.2, longitude 4). *)
Lemma gps_from_text_counterexample :
  spec_coords_pattern_in "Lat: 1.2.3 Lng: 4" = false /\
  gps_from_text "Lat: 1.2.3 Lng: 4" <> None.
Proof. split; [reflexivity | discriminate]. Qed.

(** ** Orchestrator: sample runs *)

Example run_closed_then_card :
  let w := snd (startTicketWatcher
                  (fun n id => if (n =? 0)%nat then closed_page else card_page id 0)
                  (fun _ => false) "" 2 3 (start_world (cursor_db "cab150" []) 0)) in
  probes (w_trace w) = ["cab150"; "cab151"] /\
  scraperStateRow (w_db w) = Some (mkScraperState 1 "cab151" "ok") /\
  map ticketId (ticketRows (w_db w)) = ["cab151"].
Proof. vm_compute. repeat split; reflexivity. Qed.

Example run_backoff :
  let w := snd (startTicketWatcher
                  (fun n id => if (n <? 4)%nat then text_page TicketMessage.NO_RESULTS
                               else card_page id 0)
                  (fun _ => false) "" 1 10 (start_world (cursor_db "cab150" []) 0)) in
  sleeps_of (w_trace w) = [10000; 30000; 60000; 60000; 2000].
Proof. vm_compute. reflexivity. Qed.

Example run_captcha :
  let w := snd (startTicketWatcher
                  (fun n id => captcha_page TicketMessage.NO_RESULTS)
                  (fun _ => true) "key" 1 10 (start_world (cursor_db "cab150" []) 0)) in
  length (probes (w_trace w)) = 11%nat.
Proof. vm_compute. reflexivity. Qed.

(** ** Cursor update *)

(** C10.  [updateScraperState] writes a field only when the value passed
    for it is truthy: an omitted field or the empty string leaves the
    stored [lastCheckedId] (resp. [status]) as it was, the row id, the
    tickets, the trace and the counters are untouched, and [lastCheckedId]
    is never turned into the empty string.  Without the row it throws and
    changes nothing. *)
Theorem updateScraperState_truthy_fields :
  (forall w l s,
      scraperStateRow (w_db w) = None ->
      exists e, updateScraperState l s w = (Thrown e, w)) /\
  (forall w l s st,
      scraperStateRow (w_db w) = Some st ->
      exists st',
        updateScraperState l s w =
          (Ok tt, mkWorld (mkDB (Some st') (ticketRows (w_db w)))
                          (w_searches w) (w_solves w) (w_clock w) (w_trace w)) /\
        ss_id st' = ss_id st /\
        ((l = None \/ l = Some "") -> lastCheckedId st' = lastCheckedId st) /\
        (forall v, l = Some v -> v <> "" -> lastCheckedId st' = v) /\
        ((s = None \/ s = Some "") -> status st' = status st) /\
        (forall v, s = Some v -> v <> "" -> status st' = v) /\
        (lastCheckedId st' = "" -> lastCheckedId st = "")).
Proof.
  split.
  - intros w l s H. unfold updateScraperState, bind, get_db. rewrite H.
    eexists. reflexivity.
  - intros w l s st H. unfold updateScraperState, bind, get_db. rewrite H.
    exists (apply_scraper_update st l s). split; [reflexivity |].
    unfold apply_scraper_update, truthy; simpl.
    split; [reflexivity |].
    split; [intros [-> | ->]; reflexivity |].
    split; [intros v -> Hv; apply String.eqb_neq in Hv; now rewrite Hv |].
    split; [intros [-> | ->]; reflexivity |].
    split; [intros v -> Hv; apply String.eqb_neq in Hv; now rewrite Hv |].
    destruct l as [v |]; [| tauto].
    destruct (String.eqb_spec v "") as [-> | Hv]; simpl; tauto.
Qed.

Lemma updateScraperState_truthy_fields_witness :
  updateScraperState (Some "") (Some "ok") (start_world (cursor_db "cab150" []) 0) =
  (Ok tt, start_world (cursor_db "cab150" []) 0).
Proof.
  destruct (proj2 updateScraperState_truthy_fields
              (start_world (cursor_db "cab150" []) 0) (Some "") (Some "ok")
              (mkScraperState 1 "cab150" "ok") eq_refl)
    as [st' [Hrun [Hid [Hl [_ [_ [Hs _]]]]]]].
  rewrite Hrun. destruct st' as [i l s]. simpl in *.
  rewrite Hid, (Hl (or_intror eq_refl)), (Hs "ok" eq_refl ltac:(discriminate)).
  reflexivity.
Defined.

(** ** Idempotent persistence *)

Lemma find_ticket_some (id : string) (rows : list Ticket) :
  (exists t, In t rows /\ ticketId t = id) ->
  exists t, find_ticket id rows = Some t /\ In t rows /\ ticketId t = id.
Proof.
  intros Hex. unfold find_ticket.
  destruct (find (fun t => String.eqb (ticketId t) id) rows) as [t |] eqn:Hf.
  - exists t. apply find_some in Hf as [Hin Heq].
    apply String.eqb_eq in Heq. auto.
  - exfalso. destruct Hex as [t [Hin Hid]].
    apply (find_none _ _ Hf) in Hin. apply String.eqb_neq in Hin. auto.
Qed.

Lemma find_ticket_none (id : string) (rows : list Ticket) :
  find_ticket id rows = None -> ~ In id (map ticketId rows).
Proof.
  unfold find_ticket. intros Hf Hin. apply in_map_iff in Hin as [t [Hid Hin]].
  apply (find_none _ _ Hf) in Hin. apply String.eqb_neq in Hin. auto.
Qed.

(** C8.  On a store whose ticket ids are unique (the primary key), persisting
    a candidate whose id is already stored succeeds without changing
    anything (no duplicate, no error), returns the stored record with that
    id, and the store keeps exactly one record with that id. *)
Theorem persistTicket_idempotent :
  forall w ft,
    NoDup (map ticketId (ticketRows (w_db w))) ->
    (exists t, In t (ticketRows (w_db w)) /\ ticketId t = ticketId ft) ->
    exists t, persistTicket ft w = (Ok t, w) /\ ticketId t = ticketId ft /\
      count_occ string_dec (map ticketId (ticketRows (w_db w))) (ticketId ft) = 1%nat.
Proof.
  intros w ft Hnd Hex.
  destruct (find_ticket_some _ _ Hex) as [t [Hf [Hin Hid]]].
  exists t. unfold persistTicket, findUniqueTicket, bind, get_db, ret. simpl.
  rewrite Hf. split; [reflexivity | split; [assumption |]].
  apply (proj1 (NoDup_count_occ' string_dec _) Hnd).
  rewrite <- Hid. now apply in_map.
Qed.

Lemma persistTicket_idempotent_witness :
  exists t,
    persistTicket (sample_ticket "cab150" 5)
      (start_world (cursor_db "cab150" [sample_ticket "cab150" 0]) 0) =
    (Ok t, start_world (cursor_db "cab150" [sample_ticket "cab150" 0]) 0) /\
    ticketId t = "cab150" /\
    count_occ string_dec ["cab150"] "cab150" = 1%nat.
Proof.
  apply persistTicket_idempotent.
  - repeat constructor. intros [].
  - exists (sample_ticket "cab150" 0). split; [left; reflexivity | reflexivity].
Defined.

(** ** Challenge resolution *)

Lemma bind_ok {A B} (m : M A) (k : A -> M B) (w w1 : World) (a : A) :
  m w = (Ok a, w1) -> bind m k w = k a w1.
Proof. intros H. unfold bind. now rewrite H. Qed.

Ltac name_response r :=
  match goal with
  | |- context [getTicketSearchResponse ?i ?p] => set (r := getTicketSearchResponse i p)
  end.

Lemma is_challenge_cases (r : TicketSearchResponse) :
  is_challenge r = true -> result r = CAPTCHA \/ result r = FAILED_CHALLENGE.
Proof. unfold is_challenge. destruct (result r); simpl; auto; discriminate. Qed.

Ltac run_M :=
  unfold bind, ret, tell, page_reload, solveCaptcha, submit_and_classify;
  cbn -[getTicketSearchResponse challenge_loop].

Ltac loop_step IH :=
  match goal with
  | |- exists l rf w', challenge_loop _ _ _ _ _ ?n ?r ?w2 = _ /\ _ =>
      let l := fresh "l" in let rf := fresh "rf" in let w' := fresh "w'" in
      let Hrun := fresh "Hrun" in let Htr := fresh "Htr" in let Hsp := fresh "Hsp" in
      destruct (IH n r w2 ltac:(unfold maxCaptchaAttempts in *; lia))
        as [l [rf [w' [Hrun [Htr Hsp]]]]];
      rewrite Hrun; eexists _, rf, w'; split; [reflexivity |];
      split; [rewrite Htr; simpl; rewrite <- !app_assoc; reflexivity | simpl]
  end.

Lemma challenge_loop_spec page_after solve_answer key (id : string) :
  forall fuel n r w,
    (n + fuel = maxCaptchaAttempts)%nat ->
    exists l rf w',
      challenge_loop page_after solve_answer key fuel id n r w = (Ok rf, w') /\
      w_trace w' = w_trace w ++ l /\
      spec_resolution id (truthy (Some key)) n r l rf.
Proof.
  induction fuel as [| fuel IH]; intros n r w Hn.
  - exists [], r, w. split; [reflexivity |]. rewrite app_nil_r. split; [reflexivity |].
    constructor. right. unfold maxCaptchaAttempts in Hn. lia.
  - unfold maxCaptchaAttempts in Hn.
    assert (Hlt : (n <? 5)%nat = true) by (apply Nat.ltb_lt; lia).
    cbn [challenge_loop]. unfold maxCaptchaAttempts at 1. rewrite Hlt.
    destruct (is_challenge r) eqn:Hch; cbn [andb].
    2: { exists [], r, w. split; [reflexivity |]. rewrite app_nil_r.
         split; [reflexivity |]. constructor. now left. }
    destruct (is_challenge_cases r Hch) as [Hc | Hf].
    + (* CAPTCHA *)
      rewrite Hc. cbn [TicketSearchResult_eqb].
      unfold try_solver.
      destruct (truthy (Some key)) eqn:Hkey.
      * run_M.
        destruct (solve_answer (w_solves w)) eqn:Hsol.
        -- run_M.
           destruct (is_challenge (getTicketSearchResponse id (page_after (w_searches w) id)))
             eqn:Hr1; run_M.
           ++ loop_step IH. apply res_captcha_solved_again; auto; lia.
           ++ eexists _, _, _. split; [reflexivity |]. split.
              ** simpl. rewrite <- !app_assoc. reflexivity.
              ** simpl. apply res_captcha_solved; auto; lia.
        -- run_M.
           loop_step IH. apply res_captcha_unsolved; auto; lia.
      * run_M.
        loop_step IH. apply res_captcha_reload; auto; lia.
    + (* FAILED_CHALLENGE *)
      rewrite Hf. run_M.
      loop_step IH. apply res_failed; auto; lia.
Qed.

Lemma last_search_reset (l1 l2 : list Event) (id : string) (r : TicketSearchResponse) :
  last_search (l1 ++ EvSearch id r :: l2) = last_search (EvSearch id r :: l2).
Proof. unfold last_search. rewrite fold_left_app. reflexivity. Qed.

Lemma spec_resolution_facts (id : string) (c : bool) :
  forall n r l rf,
    spec_resolution id c n r l rf -> (n <= 5)%nat ->
    (n + attempts l <= 5)%nat /\
    (is_challenge rf = true -> (n + attempts l = 5)%nat) /\
    last_search (EvSearch id r :: l) = Some rf.
Proof.
  induction 1 as [n r Hstop
                 | n r r' l rf Hr Hn Hs IH
                 | n r r' l rf Hr Hn Hc Hs IH
                 | n r r' l rf Hr Hn Hc Hs IH
                 | n r r' Hr Hn Hc Hr'
                 | n r r' r'' l rf Hr Hn Hc Hr' Hs IH]; intros Hle.
  - unfold attempts. simpl. split; [lia |]. split; [| reflexivity].
    intros Hch. destruct Hstop as [Hf | Hge]; [congruence | lia].
  - destruct (IH ltac:(lia)) as [H1 [H2 H3]]. unfold attempts in *. simpl.
    split; [lia |]. split; [intros Hch; specialize (H2 Hch); lia |].
    exact (eq_trans (last_search_reset [EvSearch id r; EvAttempt (S n) FAILED_CHALLENGE; EvReload] _ _ _) H3).
  - destruct (IH ltac:(lia)) as [H1 [H2 H3]]. unfold attempts in *. simpl.
    split; [lia |]. split; [intros Hch; specialize (H2 Hch); lia |].
    exact (eq_trans (last_search_reset [EvSearch id r; EvAttempt (S n) CAPTCHA; EvReload] _ _ _) H3).
  - destruct (IH ltac:(lia)) as [H1 [H2 H3]]. unfold attempts in *. simpl.
    split; [lia |]. split; [intros Hch; specialize (H2 Hch); lia |].
    exact (eq_trans (last_search_reset
                   [EvSearch id r; EvAttempt (S n) CAPTCHA; EvSolve false; EvReload] _ _ _) H3).
  - unfold attempts. simpl. split; [lia |]. split; [congruence | reflexivity].
  - destruct (IH ltac:(lia)) as [H1 [H2 H3]]. unfold attempts in *. simpl.
    split; [lia |]. split; [intros Hch; specialize (H2 Hch); lia |].
    exact (eq_trans (last_search_reset
                   [EvSearch id r; EvAttempt (S n) CAPTCHA; EvSolve true; EvSearch id r';
                    EvReload] _ _ _) H3).
Qed.

Lemma searchForTicket_run page_after solve_answer key id w :
  exists r0 l rf w',
    searchForTicket page_after solve_answer key id w = (Ok rf, w') /\
    w_trace w' = w_trace w ++ EvSearch id r0 :: l /\
    spec_resolution id (truthy (Some key)) 0 r0 l rf.
Proof.
  unfold searchForTicket, bind at 1, submit_and_classify. cbv beta iota zeta.
  match goal with
  | |- context [challenge_loop _ _ _ _ _ 0 ?r ?w1] =>
      destruct (challenge_loop_spec page_after solve_answer key id
                  maxCaptchaAttempts 0 r w1 eq_refl) as [l [rf [w' [Hrun [Htr Hspec]]]]];
      exists r, l, rf, w'
  end.
  rewrite Hrun. split; [reflexivity |].
  split; [rewrite Htr; simpl; now rewrite <- app_assoc | exact Hspec].
Qed.

(** C7.  A search episode makes one search and then follows the
    challenge-resolution policy [spec_resolution]: at most 5 attempts; on
    [FAILED_CHALLENGE] a reload and a new search with no solving; on
    [CAPTCHA] a solving call only when the API key is set, a reload and a
    new search otherwise (or when solving fails); it stops as soon as the
    outcome is neither challenge or after the fifth attempt, and returns
    the outcome of its last search unchanged. *)
Theorem searchForTicket_resolution :
  forall page_after solve_answer key id w,
    exists r0 l rf w',
      searchForTicket page_after solve_answer key id w = (Ok rf, w') /\
      w_trace w' = w_trace w ++ EvSearch id r0 :: l /\
      spec_resolution id (truthy (Some key)) 0 r0 l rf /\
      (attempts l <= 5)%nat /\
      (is_challenge rf = true -> attempts l = 5%nat) /\
      last_search (EvSearch id r0 :: l) = Some rf.
Proof.
  intros page_after solve_answer key id w.
  destruct (searchForTicket_run page_after solve_answer key id w)
    as [r0 [l [rf [w' [Hrun [Htr Hspec]]]]]].
  exists r0, l, rf, w'. split; [exact Hrun |]. split; [exact Htr |].
  split; [exact Hspec |].
  destruct (spec_resolution_facts _ _ _ _ _ _ Hspec ltac:(lia)) as [H1 [H2 H3]].
  split; [assumption |]. split; [| assumption].
  intros Hch. specialize (H2 Hch). lia.
Qed.

(** ** Backoff *)

Lemma sleeps_of_app (l1 l2 : list Event) :
  sleeps_of (l1 ++ l2) = sleeps_of l1 ++ sleeps_of l2.
Proof. unfold sleeps_of. apply flat_map_app. Qed.

Lemma emits_bind {A B} (m : M A) (k : A -> M B) (P Q R : list Z -> Prop) :
  emits m P -> (forall a, emits (k a) Q) ->
  (forall s, P s -> R s) -> (forall s1 s2, P s1 -> Q s2 -> R (s1 ++ s2)) ->
  emits (bind m k) R.
Proof.
  intros Hm Hk H1 H2 w. unfold bind.
  destruct (Hm w) as [l1 [Ht1 Hp1]].
  destruct (m w) as [[a | e |] w1] eqn:E; simpl in Ht1.
  - destruct (Hk a w1) as [l2 [Ht2 Hq2]]. exists (l1 ++ l2).
    rewrite Ht2, Ht1, app_assoc, sleeps_of_app. auto.
  - exists l1. auto.
  - exists l1. auto.
Qed.

Lemma emits_try_catch {A} (body : M A) (h : string -> M A) (P Q R : list Z -> Prop) :
  emits body P -> (forall e, emits (h e) Q) ->
  (forall s, P s -> R s) -> (forall s1 s2, P s1 -> Q s2 -> R (s1 ++ s2)) ->
  emits (try_catch body h) R.
Proof.
  intros Hb Hh H1 H2 w. unfold try_catch.
  destruct (Hb w) as [l1 [Ht1 Hp1]].
  destruct (body w) as [[a | e |] w1] eqn:E; simpl in Ht1.
  - exists l1. auto.
  - destruct (Hh e w1) as [l2 [Ht2 Hq2]]. exists (l1 ++ l2).
    rewrite Ht2, Ht1, app_assoc, sleeps_of_app. auto.
  - exists l1. auto.
Qed.

Lemma emits_bind_silent {A B} (m : M A) (k : A -> M B) (Q : list Z -> Prop) :
  emits m (fun s => s = []) -> (forall a, emits (k a) Q) -> Q [] -> emits (bind m k) Q.
Proof.
  intros Hm Hk HQ. apply (emits_bind m k (fun s => s = []) Q); auto.
  - intros s ->. exact HQ.
  - intros s1 s2 -> H. exact H.
Qed.

Lemma emits_weaken {A} (m : M A) (P Q : list Z -> Prop) :
  emits m P -> (forall s, P s -> Q s) -> emits m Q.
Proof. intros Hm H w. destruct (Hm w) as [l [Ht Hp]]. eauto. Qed.

Lemma emits_ret {A} (a : A) : emits (ret a) (fun s => s = []).
Proof. intros w. exists []. rewrite app_nil_r. auto. Qed.

Lemma emits_tell (e : Event) :
  (forall ms, e <> EvSleep ms) -> emits (tell e) (fun s => s = []).
Proof.
  intros He w. exists [e]. split; [reflexivity |].
  destruct e; try reflexivity. exfalso. eapply He. reflexivity.
Qed.

Lemma emits_sleep (ms : Z) : emits (sleep ms) (fun s => s = [ms]).
Proof. intros w. exists [EvSleep ms]. auto. Qed.

Lemma emits_updateScraperState l s : emits (updateScraperState l s) (fun s => s = []).
Proof.
  intros w. exists []. rewrite app_nil_r. split; [| reflexivity].
  unfold updateScraperState, bind, get_db, put_db, throw.
  destruct (scraperStateRow (w_db w)); reflexivity.
Qed.

Lemma emits_persistTicket t : emits (persistTicket t) (fun s => s = []).
Proof.
  intros w. exists []. rewrite app_nil_r. split; [| reflexivity].
  unfold persistTicket, findUniqueTicket, createTicket, bind, get_db, put_db, ret, throw.
  simpl. destruct (find_ticket (ticketId t) (ticketRows (w_db w))) eqn:E; simpl; [reflexivity |].
  destruct (timestamp t); simpl; [rewrite E |]; reflexivity.
Qed.

Lemma emits_get_now : emits get_now (fun s => s = []).
Proof. intros w. exists []. rewrite app_nil_r. auto. Qed.

Lemma spec_resolution_no_sleep id c n r l rf :
  spec_resolution id c n r l rf -> sleeps_of l = [].
Proof. induction 1; simpl; auto. Qed.

Lemma emits_searchForTicket page_after solve_answer key id :
  emits (searchForTicket page_after solve_answer key id) (fun s => s = []).
Proof.
  intros w.
  destruct (searchForTicket_run page_after solve_answer key id w)
    as [r0 [l [rf [w' [Hrun [Htr Hspec]]]]]].
  exists (EvSearch id r0 :: l). rewrite Hrun. split; [exact Htr |].
  simpl. eapply spec_resolution_no_sleep; eassumption.
Qed.

Lemma emits_await_ticket page_after solve_answer key id :
  forall fuel node,
    emits (await_ticket page_after solve_answer key fuel id node)
          (fun s => exists k, s = consumed node k).
Proof.
  induction fuel as [| fuel IH]; intros node.
  - intros w. exists []. rewrite app_nil_r. split; [reflexivity |]. exists O. reflexivity.
  - cbn [await_ticket].
    eapply emits_bind with (Q := fun s => exists k, s = consumed node k);
      [apply emits_searchForTicket | | |].
    + intros r. cbv beta. destruct (negb (TicketSearchResult_eqb (result r) NO_RESULTS)).
      * apply (emits_weaken _ (fun s => s = [])); [apply emits_ret |]. intros s ->. exists O. reflexivity.
      * eapply emits_bind; [apply emits_sleep | intros; apply IH | |].
        -- intros s ->. exists 1%nat. reflexivity.
        -- intros s1 s2 -> [k ->]. exists (S k). reflexivity.
    + intros s ->. exists O. reflexivity.
    + intros s1 s2 -> [k ->]. exists k. reflexivity.
Qed.

Lemma pass_tail_one d : d = 2000 \/ d = 5000 -> pass_tail [d].
Proof. intros H. constructor; [exact H | constructor]. Qed.

Lemma emits_after_wait (found : option Ticket) (cur : string) :
  emits (match found with
         | None =>
             updateScraperState None (Some "no_results") ;;;
             sleep 2000 ;;;
             ret (incrementTicketId cur)
         | Some ft =>
             t <- persistTicket ft ;;
             updateScraperState (Some cur) (Some "ok") ;;;
             now <- get_now ;;
             let tenMinutesAgo := now - 10 * 60 * 1000 in
             (if date_ge (timestamp t) tenMinutesAgo
              then tell (EvLog "Broadcasted to SSE clients")
              else tell (EvLog "Ticket timestamp is older than 10 minutes, skipping SSE broadcast")) ;;;
             let nextTicketId := incrementTicketId cur in
             sleep 2000 ;;;
             ret nextTicketId
         end) pass_tail.
Proof.
  assert (H2000 : emits (sleep 2000 ;;; ret (incrementTicketId cur)) pass_tail).
  { eapply emits_bind; [apply emits_sleep | intros; apply emits_ret | |].
    - intros s ->. apply pass_tail_one. auto.
    - intros s1 s2 -> ->. apply pass_tail_one. auto. }
  assert (H0 : pass_tail []) by constructor.
  destruct found as [ft |].
  - apply emits_bind_silent; [apply emits_persistTicket | | exact H0]. intros t.
    apply emits_bind_silent; [apply emits_updateScraperState | | exact H0]. intros _.
    apply emits_bind_silent; [apply emits_get_now | | exact H0]. intros now.
    apply emits_bind_silent; [| intros; exact H2000 | exact H0].
    destruct (date_ge _ _); apply emits_tell; discriminate.
  - apply emits_bind_silent; [apply emits_updateScraperState | | exact H0].
    intros; exact H2000.
Qed.

Lemma emits_watcher_iteration page_after solve_answer key fuel cur :
  emits (watcher_iteration page_after solve_answer key fuel cur)
    (fun s => exists k rest, s = consumed BACKOFF_LIST k ++ rest /\ pass_tail rest).
Proof.
  set (R := fun s => exists k rest, s = consumed BACKOFF_LIST k ++ rest /\ pass_tail rest).
  assert (HR0 : R []) by (exists O, []; split; [reflexivity | constructor]).
  unfold watcher_iteration.
  eapply emits_try_catch with (P := R) (Q := pass_tail).
  - apply emits_bind_silent; [apply emits_tell; discriminate | | exact HR0]. intros _.
    apply emits_bind_silent; [apply emits_updateScraperState | | exact HR0]. intros _.
    eapply emits_bind; [apply emits_await_ticket | intros found; apply emits_after_wait | |].
    + intros s [k ->]. exists k, []. rewrite app_nil_r. split; [reflexivity | constructor].
    + intros s1 s2 [k ->] H. exists k, s2. auto.
  - intros e.
    apply emits_bind_silent; [apply emits_updateScraperState | | constructor].
    intros _. eapply emits_bind; [apply emits_sleep | intros; apply emits_ret | |].
    + intros s ->. apply pass_tail_one. auto.
    + intros s1 s2 -> ->. apply pass_tail_one. auto.
  - auto.
  - intros s1 s2 [k [rest [-> Hr]]] Hq. exists k, (rest ++ s2).
    rewrite app_assoc. split; [reflexivity |]. apply Forall_app. auto.
Qed.

Lemma firstn_app_repeat (x : Z) :
  forall k l m, (k <= m)%nat -> firstn k (l ++ repeat x m) = firstn k (l ++ repeat x k).
Proof.
  induction k as [| k IH]; intros l m Hkm; [reflexivity |].
  destruct l as [| a l].
  - destruct m as [| m]; [lia |]. simpl.
    f_equal. apply (IH [] m). lia.
  - cbn [firstn app]. f_equal. rewrite (IH l m) by lia. rewrite (IH l (S k)) by lia. reflexivity.
Qed.

Lemma consumed_last (b : Z) :
  forall k, consumed (mkBackoffNode b None) k = repeat b k.
Proof.
  induction k as [| k IH]; [reflexivity |].
  cbn [consumed advance_backoff next backoff repeat]. rewrite IH. reflexivity.
Qed.

Lemma consumed_firstn :
  forall k node, consumed node k = firstn k (backoff_values node ++ repeat (last_backoff node) k).
Proof.
  induction k as [| k IH]; intros [b nx]; [reflexivity |].
  destruct nx as [n |].
  - cbn [consumed advance_backoff next backoff backoff_values last_backoff].
    rewrite IH. cbn [app firstn]. f_equal. symmetry. apply (firstn_app_repeat _ k _ (S k)). lia.
  - cbn [consumed advance_backoff next backoff backoff_values last_backoff].
    rewrite consumed_last. cbn [app firstn]. f_equal.
    pose proof (firstn_app_repeat b k [] (S k) ltac:(lia)) as E. cbn [app] in E.
    rewrite E. symmetry. apply firstn_all2. rewrite repeat_length. lia.
Qed.

Lemma sorted_advance node :
  Sorted Z.le (backoff_values node) -> Sorted Z.le (backoff_values (advance_backoff node)).
Proof.
  destruct node as [b [n |]]; simpl; intros H; [| exact H].
  apply Sorted_inv in H. tauto.
Qed.

Lemma hdrel_advance node k :
  Sorted Z.le (backoff_values node) ->
  HdRel Z.le (backoff node) (consumed (advance_backoff node) k).
Proof.
  intros H. destruct k as [| k]; [constructor |].
  simpl. constructor.
  destruct node as [b [[b' n'] |]]; simpl in *.
  - apply Sorted_inv in H as [_ H]. apply HdRel_inv in H. exact H.
  - lia.
Qed.

Lemma consumed_sorted :
  forall k node, Sorted Z.le (backoff_values node) -> Sorted Z.le (consumed node k).
Proof.
  induction k as [| k IH]; intros node H; simpl; [constructor |].
  constructor.
  - apply IH, sorted_advance, H.
  - apply hdrel_advance, H.
Qed.

(** C6: the waits drawn from a backoff list are its durations in order,
    followed by its last duration repeated: the cursor saturates and never
    cycles nor fails. A non-decreasing list gives non-decreasing waits; the
    two-step list [10, 30] used three times gives 10, 30, 30. Every wait
    episode of [await_ticket] draws a prefix of this sequence, and every pass
    of the watcher starts its episode at the head of [BACKOFF_LIST]: its
    sleeps are such a prefix followed only by the fixed 2 s and 5 s pauses. *)
Theorem backoff_cursor_saturates :
  (forall node k,
      consumed node k = firstn k (backoff_values node ++ repeat (last_backoff node) k)) /\
  (forall node k,
      Sorted Z.le (backoff_values node) -> Sorted Z.le (consumed node k)) /\
  consumed (mkBackoffNode 10 (Some (mkBackoffNode 30 None))) 3 = [10; 30; 30] /\
  (forall page_after solve_answer key fuel id node,
      emits (await_ticket page_after solve_answer key fuel id node)
            (fun s => exists k, s = consumed node k)) /\
  (forall page_after solve_answer key fuel cur,
      emits (watcher_iteration page_after solve_answer key fuel cur)
            (fun s => exists k rest, s = consumed BACKOFF_LIST k ++ rest /\ pass_tail rest)).
Proof.
  split; [intros; apply consumed_firstn |].
  split; [intros; apply consumed_sorted; assumption |].
  split; [reflexivity |].
  split; [intros; apply emits_await_ticket | intros; apply emits_watcher_iteration].
Qed.

Lemma backoff_cursor_saturates_witness :
  Sorted Z.le (backoff_values BACKOFF_LIST) /\
  consumed BACKOFF_LIST 5 = [10000; 30000; 60000; 60000; 60000] /\
  Sorted Z.le (consumed BACKOFF_LIST 5).
Proof.
  assert (H : Sorted Z.le (backoff_values BACKOFF_LIST)).
  { simpl. repeat constructor; unfold Z.le; simpl; discriminate. }
  split; [exact H |]. split; [reflexivity |].
  exact (proj1 (proj2 backoff_cursor_saturates) BACKOFF_LIST 5%nat H).
Defined.

(** C9 (divergence).  A pass that resolves its id without a record, because
    the page shows the Closed phrase or because the challenge attempts ran
    out, moves on to the next id while the stored [lastCheckedId] keeps its
    old value: only the status becomes "no_results".  The sibling path, a
    found record, does write the current id into [lastCheckedId]. *)
Theorem watcher_unresolved_id_not_committed :
  (let '(o, w) := watcher_iteration (fun _ _ => closed_page) (fun _ => false) ""
                    3 "cab150" (start_world (cursor_db "cab149" []) 0) in
   o = Ok "cab151" /\
   scraperStateRow (w_db w) = Some (mkScraperState 1 "cab149" "no_results")) /\
  (let '(o, w) := watcher_iteration (fun _ _ => captcha_page TicketMessage.NO_RESULTS)
                    (fun _ => false) "key"
                    3 "cab150" (start_world (cursor_db "cab149" []) 0) in
   o = Ok "cab151" /\
   scraperStateRow (w_db w) = Some (mkScraperState 1 "cab149" "no_results")) /\
  (let '(o, w) := watcher_iteration (fun _ id => card_page id 0) (fun _ => false) ""
                    3 "cab150" (start_world (cursor_db "cab149" []) 0) in
   o = Ok "cab151" /\
   scraperStateRow (w_db w) = Some (mkScraperState 1 "cab150" "ok")).
Proof. vm_compute. repeat split; reflexivity. Qed.

(** ** Resuming from the cursor *)

Lemma starts_with_bind_ok {A B} (m : M A) (k : A -> M B) w a w1 p1 p2 :
  m w = (Ok a, w1) -> w_trace w1 = w_trace w ++ p1 -> starts_with (k a) w1 p2 ->
  starts_with (bind m k) w (p1 ++ p2).
Proof.
  intros Hm Ht [l Hl]. exists l. unfold bind. rewrite Hm, Hl, Ht.
  rewrite <- !app_assoc. reflexivity.
Qed.

Lemma starts_with_bind_first {A B} (m : M A) (k : A -> M B) w p :
  starts_with m w p -> (forall a, emits (k a) (fun _ => True)) ->
  starts_with (bind m k) w p.
Proof.
  intros [l Hl] Hk. unfold bind. cbv beta.
  destruct (m w) as [[a | e |] w1] eqn:E; simpl in Hl.
  - destruct (Hk a w1) as [l2 [H2 _]]. exists (l ++ l2).
    rewrite E. simpl.
    rewrite H2, Hl, <- !app_assoc. reflexivity.
  - exists l. rewrite E. exact Hl.
  - exists l. rewrite E. exact Hl.
Qed.

Lemma starts_with_try_catch {A} (body : M A) (h : string -> M A) w p :
  starts_with body w p -> (forall e, emits (h e) (fun _ => True)) ->
  starts_with (try_catch body h) w p.
Proof.
  intros [l Hl] Hh. unfold try_catch. cbv beta.
  destruct (body w) as [[a | e |] w1] eqn:E; simpl in Hl.
  - exists l. rewrite E. exact Hl.
  - destruct (Hh e w1) as [l2 [H2 _]]. exists (l ++ l2).
    rewrite E, H2, Hl, <- !app_assoc. reflexivity.
  - exists l. rewrite E. exact Hl.
Qed.

Lemma emits_any {A} (m : M A) (P : list Z -> Prop) : emits m P -> emits m (fun _ => True).
Proof. intros H. apply (emits_weaken m P). exact H. auto. Qed.

Lemma emits_watcher_loop page_after solve_answer key fuel :
  forall passes cur,
    emits (watcher_loop page_after solve_answer key passes fuel cur) (fun _ => True).
Proof.
  induction passes as [| passes IH]; intros cur; cbn [watcher_loop].
  - eapply emits_any, emits_ret.
  - eapply emits_bind; [eapply emits_any, emits_watcher_iteration | intros; apply IH | auto | auto].
Qed.

Lemma getOrCreateScraperState_run w :
  exists st w1,
    getOrCreateScraperState w = (Ok st, w1) /\ w_trace w1 = w_trace w /\
    scraperStateRow (w_db w1) = Some st /\
    lastCheckedId st = match scraperStateRow (w_db w) with
                       | Some st0 => lastCheckedId st0
                       | None => DEFAULT_START_TICKET_ID
                       end.
Proof.
  unfold getOrCreateScraperState, bind, get_db, put_db, ret.
  destruct (scraperStateRow (w_db w)) as [st |] eqn:E.
  - eexists _, _. split; [reflexivity |]. auto.
  - eexists _, _. split; [reflexivity |]. simpl. auto.
Qed.

Lemma updateScraperState_run l s w st :
  scraperStateRow (w_db w) = Some st ->
  exists w1, updateScraperState l s w = (Ok tt, w1) /\ w_trace w1 = w_trace w /\
             exists st1, scraperStateRow (w_db w1) = Some st1.
Proof.
  intros E. unfold updateScraperState, bind, get_db, put_db. rewrite E.
  eexists. split; [reflexivity |]. simpl. eauto.
Qed.

Lemma watcher_iteration_first_probe page_after solve_answer key fuel cur w st :
  scraperStateRow (w_db w) = Some st ->
  exists r0, starts_with (watcher_iteration page_after solve_answer key (S fuel) cur) w
                         [EvReload; EvSearch cur r0].
Proof.
  intros Hrow. unfold watcher_iteration.
  set (w2 := mkWorld (w_db w) (w_searches w) (w_solves w) (w_clock w) (w_trace w ++ [EvReload])).
  destruct (updateScraperState_run None (Some (sapp "checking " cur)) w2 st Hrow)
    as [w3 [Hu [Ht3 _]]].
  destruct (searchForTicket_run page_after solve_answer key cur w3)
    as [r0 [l [rf [w4 [Hs [Ht4 _]]]]]].
  exists r0.
  apply starts_with_try_catch.
  2: { intros e. apply emits_bind_silent; [apply emits_updateScraperState | | exact I].
       intros _. eapply emits_bind; [apply emits_sleep | intros; apply emits_ret | auto | auto]. }
  change [EvReload; EvSearch cur r0] with ([EvReload] ++ ([] ++ [EvSearch cur r0])).
  apply (starts_with_bind_ok _ _ w tt w2); [reflexivity | reflexivity |].
  apply (starts_with_bind_ok _ _ w2 tt w3); [exact Hu | rewrite Ht3, app_nil_r; reflexivity |].
  apply starts_with_bind_first.
  2: { intros found. eapply emits_any, emits_after_wait. }
  cbn [await_ticket]. apply starts_with_bind_first.
  2: { intros r. cbv beta. destruct (negb (TicketSearchResult_eqb (result r) NO_RESULTS)).
       - eapply emits_any, emits_ret.
       - eapply emits_bind; [apply emits_sleep | intros; eapply emits_any, emits_await_ticket
                            | auto | auto]. }
  exists l. rewrite Hs. simpl snd. rewrite Ht4. reflexivity.
Qed.

Lemma startTicketWatcher_first_probe page_after solve_answer key passes fuel w :
  exists r0,
    starts_with (startTicketWatcher page_after solve_answer key (S passes) (S fuel)) w
      [EvNavigate; EvReload;
       EvSearch (match scraperStateRow (w_db w) with
                 | Some st => lastCheckedId st
                 | None => DEFAULT_START_TICKET_ID
                 end) r0].
Proof.
  destruct (getOrCreateScraperState_run w) as [st [w1 [Hg [Ht1 [Hrow1 Hid]]]]].
  set (w2 := mkWorld (w_db w1) (w_searches w1) (w_solves w1) (w_clock w1)
                     (w_trace w1 ++ [EvNavigate])).
  destruct (watcher_iteration_first_probe page_after solve_answer key fuel
              (lastCheckedId st) w2 st Hrow1) as [r0 Hit].
  exists r0. rewrite <- Hid.
  change [EvNavigate; EvReload; EvSearch (lastCheckedId st) r0]
    with ([] ++ ([EvNavigate] ++ [EvReload; EvSearch (lastCheckedId st) r0])).
  unfold startTicketWatcher.
  apply (starts_with_bind_ok _ _ w st w1); [exact Hg | rewrite Ht1, app_nil_r; reflexivity |].
  apply (starts_with_bind_ok _ _ w1 tt w2); [reflexivity | reflexivity |].
  cbn [watcher_loop]. apply starts_with_bind_first; [exact Hit |].
  intros; apply emits_watcher_loop.
Qed.

Lemma starts_with_probe {A} (m : M A) w pre :
  starts_with m w pre -> exists l, w_trace (snd (m w)) = w_trace w ++ pre ++ l.
Proof. intros H. exact H. Qed.

(** C1 counterexample: restarted with the committed cursor ["cab150"], the
    watcher first probes ["cab150"] again, not ["cab151"]. *)
Lemma startTicketWatcher_restart_counterexample :
  hd_error (probes (w_trace (snd (startTicketWatcher (fun _ id => card_page id 0)
                                    (fun _ => false) "" 1 1
                                    (start_world (cursor_db "cab150" []) 0)))))
  = Some "cab150" /\
  hd_error (probes (w_trace (snd (startTicketWatcher (fun _ id => card_page id 0)
                                    (fun _ => false) "" 1 1
                                    (start_world (cursor_db "cab150" []) 0)))))
  <> Some "cab151".
Proof. vm_compute. split; [reflexivity | discriminate]. Qed.

(** C1 (amended).  On start the watcher reads the cursor row and the first
    id it probes is the stored [lastCheckedId] itself, not its successor;
    the configured default start id is probed first only when no row
    exists.  Restarted with the committed cursor ["cab150"], whatever the
    pages show, the first probe is ["cab150"]. *)
Theorem startTicketWatcher_resumes_at_cursor :
  (forall page_after solve_answer key passes fuel w st,
      scraperStateRow (w_db w) = Some st ->
      exists r0 l,
        w_trace (snd (startTicketWatcher page_after solve_answer key (S passes) (S fuel) w))
        = w_trace w ++ [EvNavigate; EvReload; EvSearch (lastCheckedId st) r0] ++ l) /\
  (forall page_after solve_answer key passes fuel w,
      scraperStateRow (w_db w) = None ->
      exists r0 l,
        w_trace (snd (startTicketWatcher page_after solve_answer key (S passes) (S fuel) w))
        = w_trace w ++ [EvNavigate; EvReload; EvSearch DEFAULT_START_TICKET_ID r0] ++ l) /\
  (forall page_after solve_answer key passes fuel,
      hd_error (probes (w_trace (snd (startTicketWatcher page_after solve_answer key
                                        (S passes) (S fuel)
                                        (start_world (cursor_db "cab150" []) 0)))))
      = Some "cab150").
Proof.
  split; [| split].
  - intros page_after solve_answer key passes fuel w st Hrow.
    destruct (startTicketWatcher_first_probe page_after solve_answer key passes fuel w)
      as [r0 Hs].
    rewrite Hrow in Hs. exists r0. exact (starts_with_probe _ _ _ Hs).
  - intros page_after solve_answer key passes fuel w Hrow.
    destruct (startTicketWatcher_first_probe page_after solve_answer key passes fuel w)
      as [r0 Hs].
    rewrite Hrow in Hs. exists r0. exact (starts_with_probe _ _ _ Hs).
  - intros page_after solve_answer key passes fuel.
    destruct (startTicketWatcher_first_probe page_after solve_answer key passes fuel
                (start_world (cursor_db "cab150" []) 0)) as [r0 [l Hl]].
    rewrite Hl. reflexivity.
Qed.

Lemma startTicketWatcher_resumes_at_cursor_witness :
  scraperStateRow (w_db (start_world (cursor_db "cab150" []) 0))
    = Some (mkScraperState 1 "cab150" "ok") /\
  (exists r0 l,
      w_trace (snd (startTicketWatcher (fun _ id => card_page id 0) (fun _ => false) "" 1 1
                      (start_world (cursor_db "cab150" []) 0)))
      = [] ++ [EvNavigate; EvReload; EvSearch "cab150" r0] ++ l) /\
  scraperStateRow (w_db (start_world (mkDB None []) 0)) = None /\
  (exists r0 l,
      w_trace (snd (startTicketWatcher (fun _ id => card_page id 0) (fun _ => false) "" 1 1
                      (start_world (mkDB None []) 0)))
      = [] ++ [EvNavigate; EvReload; EvSearch DEFAULT_START_TICKET_ID r0] ++ l).
Proof.
  split; [reflexivity |]. split.
  - exact (proj1 startTicketWatcher_resumes_at_cursor (fun _ id => card_page id 0)
             (fun _ => false) "" 0%nat 0%nat (start_world (cursor_db "cab150" []) 0)
             (mkScraperState 1 "cab150" "ok") eq_refl).
  - split; [reflexivity |].
    exact (proj1 (proj2 startTicketWatcher_resumes_at_cursor) (fun _ id => card_page id 0)
             (fun _ => false) "" 0%nat 0%nat (start_world (mkDB None []) 0) eq_refl).
Defined.

(** C3 (divergence).  A genuinely new record nine minutes old is stored and
    the freshness gate takes its broadcast branch, but nothing reaches the
    notification sink: the forwarding call is commented out in the source.
    An eleven-minute-old record is stored and skipped.  A record already in
    the store goes through the same gate as a new one. *)
Theorem watcher_fresh_ticket_not_forwarded :
  (let w := snd (watcher_iteration (fun _ id => card_page id (1700000000000 - 9 * 60 * 1000))
                   (fun _ => false) "" 3 "cab150"
                   (start_world (cursor_db "cab149" []) 1700000000000)) in
   map ticketId (ticketRows (w_db w)) = ["cab150"] /\
   logs (w_trace w) = ["Broadcasted to SSE clients"] /\
   notifications (w_trace w) = []) /\
  (let w := snd (watcher_iteration (fun _ id => card_page id (1700000000000 - 11 * 60 * 1000))
                   (fun _ => false) "" 3 "cab150"
                   (start_world (cursor_db "cab149" []) 1700000000000)) in
   map ticketId (ticketRows (w_db w)) = ["cab150"] /\
   logs (w_trace w) = ["Ticket timestamp is older than 10 minutes, skipping SSE broadcast"] /\
   notifications (w_trace w) = []) /\
  (let old := sample_ticket "cab150" (1700000000000 - 9 * 60 * 1000) in
   let w := snd (watcher_iteration (fun _ id => card_page id (1700000000000 - 9 * 60 * 1000))
                   (fun _ => false) "" 3 "cab150"
                   (start_world (cursor_db "cab149" [old]) 1700000000000)) in
   ticketRows (w_db w) = [old] /\
   logs (w_trace w) = ["Broadcasted to SSE clients"] /\
   notifications (w_trace w) = []).
Proof. vm_compute. repeat split; reflexivity. Qed.

(** ** Further properties of the identifier sequencer *)

Lemma digits_value_acc_uint (d : Decimal.uint) :
  forall acc, digits_value_acc (Z.pos acc) (NilEmpty.string_of_uint d)
              = Z.pos (Pos.of_uint_acc d acc).
Proof.
  induction d as [| d IH | d IH | d IH | d IH | d IH | d IH | d IH | d IH | d IH | d IH];
    intros acc; cbn [NilEmpty.string_of_uint digits_value_acc Pos.of_uint_acc];
    [reflexivity | ..]; rewrite <- IH; f_equal;
    match goal with
    | |- context [digit_value ?c] =>
        let v := eval vm_compute in (digit_value c) in change (digit_value c) with v
    end;
    rewrite ?Pos2Z.inj_add, ?Pos2Z.inj_mul; lia.
Qed.

Lemma digits_value_uint (d : Decimal.uint) :
  digits_value (NilEmpty.string_of_uint d) = Z.of_N (Pos.of_uint d).
Proof.
  unfold digits_value.
  induction d as [| d IH | d IH | d IH | d IH | d IH | d IH | d IH | d IH | d IH | d IH];
    cbn [NilEmpty.string_of_uint digits_value_acc Pos.of_uint];
    [reflexivity | exact IH | ..];
    match goal with
    | |- digits_value_acc ?a _ = Z.of_N (N.pos (Pos.of_uint_acc _ ?k)) =>
        change a with (Z.pos k); apply digits_value_acc_uint
    end.
Qed.

Lemma digits_uint (d : Decimal.uint) : all_chars is_digit (NilEmpty.string_of_uint d) = true.
Proof.
  induction d as [| d IH | d IH | d IH | d IH | d IH | d IH | d IH | d IH | d IH | d IH];
    simpl; rewrite ?IH; reflexivity.
Qed.

Lemma Z_to_string_pos (z : Z) :
  0 < z ->
  all_chars is_digit (Z_to_string z) = true /\ Z_to_string z <> EmptyString /\
  digits_value (Z_to_string z) = z.
Proof.
  intros Hz. destruct z as [| p | p]; try lia.
  unfold Z_to_string. cbn [Z.to_int NilEmpty.string_of_int].
  assert (Hv : digits_value (NilEmpty.string_of_uint (Pos.to_uint p)) = Z.pos p).
  { rewrite digits_value_uint, DecimalPos.Unsigned.of_to. reflexivity. }
  split; [apply digits_uint |]. split; [| exact Hv].
  intros He. rewrite He in Hv. discriminate.
Qed.

Lemma all_chars_sapp (f : ascii -> bool) (a b : string) :
  all_chars f (sapp a b) = all_chars f a && all_chars f b.
Proof. induction a as [| c a IH]; simpl; [reflexivity | rewrite IH, andb_assoc; reflexivity]. Qed.

Lemma digits_repeat_zero (n : nat) : all_chars is_digit (repeat_char "0"%char n) = true.
Proof. induction n as [| n IH]; simpl; [reflexivity | exact IH]. Qed.

Lemma digits_value_zeros (n : nat) (s : string) :
  digits_value (sapp (repeat_char "0"%char n) s) = digits_value s.
Proof. induction n as [| n IH]; [reflexivity | exact IH]. Qed.

Lemma sapp_length (a b : string) : String.length (sapp a b) = (String.length a + String.length b)%nat.
Proof. induction a as [| c a IH]; simpl; [reflexivity | rewrite IH; reflexivity]. Qed.

Lemma repeat_char_length (c : ascii) (n : nat) : String.length (repeat_char c n) = n.
Proof. induction n as [| n IH]; simpl; [reflexivity | rewrite IH; reflexivity]. Qed.

Lemma padStart0_facts (s : string) (w : nat) :
  all_chars is_digit s = true -> s <> EmptyString ->
  all_chars is_digit (padStart0 s w) = true /\ padStart0 s w <> EmptyString /\
  digits_value (padStart0 s w) = digits_value s /\
  (w <= String.length (padStart0 s w))%nat.
Proof.
  intros Hd Hne. unfold padStart0.
  destruct (Nat.leb_spec w (String.length s)) as [Hle | Hgt].
  - auto.
  - rewrite all_chars_sapp, digits_repeat_zero, Hd, digits_value_zeros.
    split; [reflexivity |]. split; [| split; [reflexivity |]].
    + destruct s; [congruence |]. destruct (w - _)%nat; discriminate.
    + rewrite sapp_length, repeat_char_length. lia.
Qed.

Lemma sapp_cancel_l (p a b : string) : sapp p a = sapp p b -> a = b.
Proof. induction p as [| c p IH]; simpl; [auto | intros H; inversion H; auto]. Qed.

(** One step of the sequencer on a well-formed identifier. *)
Lemma incrementTicketId_step (prefix numeric : string) :
  all_chars is_letter prefix = true -> all_chars is_digit numeric = true ->
  numeric <> EmptyString -> digits_value numeric + 1 < 2 ^ 53 ->
  exists numeric',
    incrementTicketId (sapp prefix numeric) = sapp prefix numeric' /\
    all_chars is_digit numeric' = true /\ numeric' <> EmptyString /\
    digits_value numeric' = digits_value numeric + 1 /\
    (String.length numeric <= String.length numeric')%nat.
Proof.
  intros Hp Hd Hne Hbound.
  assert (H0 : 0 <= digits_value numeric)
    by (apply digits_value_acc_nonneg; [assumption | lia]).
  exists (padStart0 (Z_to_string (digits_value numeric + 1)) (String.length numeric)).
  unfold incrementTicketId. rewrite match_ticket_id_app by assumption. cbv zeta.
  unfold parseInt10. rewrite round_binary64_small by lia. simpl js_add1.
  rewrite round_binary64_small by lia. rewrite js_toString_small by lia.
  split; [reflexivity |].
  destruct (Z_to_string_pos (digits_value numeric + 1) ltac:(lia)) as [Hd' [Hne' Hv']].
  destruct (padStart0_facts _ (String.length numeric) Hd' Hne') as [H1 [H2 [H3 H4]]].
  rewrite H3, Hv'. auto.
Qed.

Lemma incrementTicketId_iter_shape (prefix numeric : string) :
  all_chars is_letter prefix = true -> all_chars is_digit numeric = true ->
  numeric <> EmptyString ->
  forall n, digits_value numeric + Z.of_nat n < 2 ^ 53 ->
  exists numeric',
    Nat.iter n incrementTicketId (sapp prefix numeric) = sapp prefix numeric' /\
    all_chars is_digit numeric' = true /\ numeric' <> EmptyString /\
    digits_value numeric' = digits_value numeric + Z.of_nat n /\
    (String.length numeric <= String.length numeric')%nat.
Proof.
  intros Hp Hd Hne n. induction n as [| n IH]; intros Hb.
  - exists numeric. simpl. repeat split; auto. lia.
  - destruct IH as [num1 [Hi [Hd1 [Hne1 [Hv1 Hl1]]]]]; [lia |].
    destruct (incrementTicketId_step prefix num1 Hp Hd1 Hne1 ltac:(lia))
      as [num2 [Hs [Hd2 [Hne2 [Hv2 Hl2]]]]].
    exists num2.
    change (Nat.iter (S n) incrementTicketId (sapp prefix numeric))
      with (incrementTicketId (Nat.iter n incrementTicketId (sapp prefix numeric))).
    rewrite Hi, Hs. repeat split; auto; lia.
Qed.

(** Extra (sequencer).  Starting from an identifier made of a letter prefix
    and a run of digits, [n] successive increments keep the prefix, yield a
    digit run again, never narrower than the original one, whose value is
    the original value plus [n], as long as that stays below [2^53]; so
    within that range the sequence never returns to an identifier it has
    already produced. *)
Theorem incrementTicketId_iterate :
  forall prefix numeric,
    all_chars is_letter prefix = true -> all_chars is_digit numeric = true ->
    numeric <> EmptyString ->
    (forall n, digits_value numeric + Z.of_nat n < 2 ^ 53 ->
       exists numeric',
         Nat.iter n incrementTicketId (sapp prefix numeric) = sapp prefix numeric' /\
         all_chars is_digit numeric' = true /\
         digits_value numeric' = digits_value numeric + Z.of_nat n /\
         (String.length numeric <= String.length numeric')%nat) /\
    (forall n m, (n < m)%nat -> digits_value numeric + Z.of_nat m < 2 ^ 53 ->
       Nat.iter n incrementTicketId (sapp prefix numeric)
       <> Nat.iter m incrementTicketId (sapp prefix numeric)).
Proof.
  intros prefix numeric Hp Hd Hne. split.
  - intros n Hb.
    destruct (incrementTicketId_iter_shape prefix numeric Hp Hd Hne n Hb)
      as [num' [H1 [H2 [_ [H3 H4]]]]].
    exists num'. auto.
  - intros n m Hnm Hb Heq.
    destruct (incrementTicketId_iter_shape prefix numeric Hp Hd Hne n ltac:(lia))
      as [a [Ha [_ [_ [Hva _]]]]].
    destruct (incrementTicketId_iter_shape prefix numeric Hp Hd Hne m Hb)
      as [b [Hb' [_ [_ [Hvb _]]]]].
    rewrite Ha, Hb' in Heq. apply sapp_cancel_l in Heq. subst b. lia.
Qed.

Lemma incrementTicketId_iterate_witness :
  Nat.iter 3 incrementTicketId (sapp "cab" "098") = sapp "cab" "101" /\
  Nat.iter 1 incrementTicketId (sapp "cab" "098")
  <> Nat.iter 2 incrementTicketId (sapp "cab" "098").
Proof.
  split; [vm_compute; reflexivity |].
  apply (proj2 (incrementTicketId_iterate "cab" "098" eq_refl eq_refl ltac:(discriminate)));
    [lia | vm_compute; reflexivity].
Defined.

(** ** Store invariants of the watcher *)

Lemma db_fixed_ret {A} (a : A) : db_fixed (ret a).
Proof. intros w. reflexivity. Qed.

Lemma db_fixed_tell e : db_fixed (tell e).
Proof. intros w. reflexivity. Qed.

Lemma db_fixed_sleep ms : db_fixed (sleep ms).
Proof. intros w. reflexivity. Qed.

Lemma db_fixed_get_now : db_fixed get_now.
Proof. intros w. reflexivity. Qed.

Lemma db_fixed_bind {A B} (m : M A) (k : A -> M B) :
  db_fixed m -> (forall a, db_fixed (k a)) -> db_fixed (bind m k).
Proof.
  intros Hm Hk w. unfold bind. cbv beta. specialize (Hm w).
  destruct (m w) as [[a | e |] w1] eqn:E; simpl in *; [rewrite (Hk a w1) | |]; auto.
Qed.

Lemma db_fixed_submit page_after id : db_fixed (submit_and_classify page_after id).
Proof. intros w. reflexivity. Qed.

Lemma db_fixed_solve solve_answer : db_fixed (solveCaptcha solve_answer).
Proof. intros w. reflexivity. Qed.

Ltac db_fixed_tac :=
  repeat first
    [ apply db_fixed_submit | apply db_fixed_solve
    | apply db_fixed_ret | apply db_fixed_tell | apply db_fixed_sleep
    | apply db_fixed_get_now
    | apply db_fixed_bind; [| intros ?; cbv beta]
    | match goal with
      | |- db_fixed (if ?b then _ else _) => destruct b
      | |- db_fixed (match ?x with _ => _ end) => destruct x
      end ].

Lemma db_fixed_challenge_loop page_after solve_answer key id :
  forall fuel n r, db_fixed (challenge_loop page_after solve_answer key fuel id n r).
Proof.
  induction fuel as [| fuel IH]; intros n r; cbn [challenge_loop]; [apply db_fixed_ret |].
  unfold try_solver, page_reload. db_fixed_tac. all: apply IH.
Qed.

Lemma db_fixed_searchForTicket page_after solve_answer key id :
  db_fixed (searchForTicket page_after solve_answer key id).
Proof.
  unfold searchForTicket.
  apply db_fixed_bind; [apply db_fixed_submit | intros; apply db_fixed_challenge_loop].
Qed.

Lemma db_fixed_await_ticket page_after solve_answer key id :
  forall fuel node, db_fixed (await_ticket page_after solve_answer key fuel id node).
Proof.
  induction fuel as [| fuel IH]; intros node; cbn [await_ticket].
  - intros w. reflexivity.
  - apply db_fixed_bind; [apply db_fixed_searchForTicket | intros r; cbv beta].
    db_fixed_tac. apply IH.
Qed.

Section Keeps.

Variable R : World -> World -> Prop.
Hypothesis R_db : forall w w', w_db w' = w_db w -> R w w'.
Hypothesis R_trans : forall w1 w2 w3, R w1 w2 -> R w2 w3 -> R w1 w3.

Lemma keeps_db_fixed {A} (m : M A) : db_fixed m -> keeps R m.
Proof. intros H w. apply R_db, H. Qed.

Lemma keeps_bind {A B} (m : M A) (k : A -> M B) :
  keeps R m -> (forall a, keeps R (k a)) -> keeps R (bind m k).
Proof.
  intros Hm Hk w. unfold bind. cbv beta. specialize (Hm w).
  destruct (m w) as [[a | e |] w1] eqn:E; simpl in *; auto.
  eapply R_trans; [exact Hm | apply Hk].
Qed.

Lemma keeps_bind_dep {A B} (m : M A) (k : A -> M B) (P : A -> Prop) :
  keeps R m -> hoare (fun _ => True) m (fun a _ => P a) ->
  (forall a, P a -> keeps R (k a)) -> keeps R (bind m k).
Proof.
  intros Hm Hh Hk w. unfold bind. cbv beta. specialize (Hm w). specialize (Hh w I).
  destruct (m w) as [[a | e |] w1] eqn:E; simpl in *; auto.
  eapply R_trans; [exact Hm | apply Hk; exact Hh].
Qed.

Lemma keeps_try_catch {A} (body : M A) (h : string -> M A) :
  keeps R body -> (forall e, keeps R (h e)) -> keeps R (try_catch body h).
Proof.
  intros Hb Hh w. unfold try_catch. cbv beta. specialize (Hb w).
  destruct (body w) as [[a | e |] w1] eqn:E; simpl in *; auto.
  eapply R_trans; [exact Hb | apply Hh].
Qed.

End Keeps.

Lemma store_grows_db w w' : w_db w' = w_db w -> store_grows w w'.
Proof.
  intros E. unfold store_grows, ticket_ids. rewrite E.
  split; [exists []; symmetry; apply app_nil_r |]. split; [auto |]. eauto.
Qed.

Lemma store_grows_trans w1 w2 w3 : store_grows w1 w2 -> store_grows w2 w3 -> store_grows w1 w3.
Proof.
  intros [[a1 H1] [N1 S1]] [[a2 H2] [N2 S2]]. split; [| split].
  - exists (a1 ++ a2). rewrite H2, H1, app_assoc. reflexivity.
  - auto.
  - intros st Hst. destruct (S1 st Hst) as [st' [E' I']].
    destruct (S2 st' E') as [st'' [E'' I'']]. exists st''. split; [assumption | congruence].
Qed.

Lemma adds_only_db cur w w' : w_db w' = w_db w -> adds_only cur w w'.
Proof. intros E. exists []. rewrite E, app_nil_r. split; [reflexivity | constructor]. Qed.

Lemma adds_only_trans cur w1 w2 w3 :
  adds_only cur w1 w2 -> adds_only cur w2 w3 -> adds_only cur w1 w3.
Proof.
  intros [a1 [H1 F1]] [a2 [H2 F2]]. exists (a1 ++ a2).
  rewrite H2, H1, app_assoc. split; [reflexivity | apply Forall_app; auto].
Qed.

Lemma store_grows_updateScraperState l s : keeps store_grows (updateScraperState l s).
Proof.
  intros w. unfold updateScraperState, bind, get_db, put_db, throw.
  destruct (scraperStateRow (w_db w)) as [st |] eqn:E; simpl; [| apply store_grows_db; reflexivity].
  split; [exists []; rewrite app_nil_r; reflexivity |]. split.
  - unfold ticket_ids. simpl. auto.
  - intros st0 Hst0. rewrite E in Hst0. inversion Hst0; subst.
    eexists. split; [reflexivity | reflexivity].
Qed.

Lemma store_grows_getOrCreate : keeps store_grows getOrCreateScraperState.
Proof.
  intros w. unfold getOrCreateScraperState, bind, get_db, put_db, ret.
  destruct (scraperStateRow (w_db w)) as [st |] eqn:E; simpl; [apply store_grows_db; reflexivity |].
  split; [exists []; rewrite app_nil_r; reflexivity |]. split.
  - unfold ticket_ids. simpl. auto.
  - intros st0 Hst0. rewrite E in Hst0. discriminate.
Qed.

Lemma store_grows_persistTicket t : keeps store_grows (persistTicket t).
Proof.
  intros w. unfold persistTicket, findUniqueTicket, createTicket, bind, get_db, put_db, ret, throw.
  simpl. destruct (find_ticket (ticketId t) (ticketRows (w_db w))) as [t0 |] eqn:E;
    simpl; [apply store_grows_db; reflexivity |].
  destruct (timestamp t); simpl; [| apply store_grows_db; reflexivity].
  rewrite E. simpl. split; [| split].
  - exists [t]. reflexivity.
  - unfold ticket_ids. simpl. rewrite map_app. simpl. intros Hnd.
    apply NoDup_app; [exact Hnd | repeat constructor; auto |].
    intros x Hx Hx'. destruct Hx' as [<- | []]. apply (find_ticket_none _ _ E Hx).
  - intros st Hst. exists st. auto.
Qed.

Lemma adds_only_updateScraperState cur l s : keeps (adds_only cur) (updateScraperState l s).
Proof.
  intros w. exists []. rewrite app_nil_r. split; [| constructor].
  unfold updateScraperState, bind, get_db, put_db, throw.
  destruct (scraperStateRow (w_db w)); reflexivity.
Qed.

Lemma adds_only_persistTicket t : keeps (adds_only (ticketId t)) (persistTicket t).
Proof.
  intros w. unfold persistTicket, findUniqueTicket, createTicket, bind, get_db, put_db, ret, throw.
  simpl. destruct (find_ticket (ticketId t) (ticketRows (w_db w))) as [t0 |] eqn:E;
    simpl; [apply adds_only_db; reflexivity |].
  destruct (timestamp t); simpl; [| apply adds_only_db; reflexivity].
  rewrite E. simpl. exists [t]. split; [reflexivity | repeat constructor].
Qed.

Ltac store_grows_tac :=
  repeat first
    [ apply store_grows_updateScraperState | apply store_grows_persistTicket
    | apply store_grows_getOrCreate
    | apply (keeps_db_fixed _ store_grows_db);
      first [ apply db_fixed_await_ticket | apply db_fixed_ret | apply db_fixed_tell
            | apply db_fixed_sleep | apply db_fixed_get_now ]
    | apply (keeps_try_catch _ store_grows_trans); [| intros ?]
    | apply (keeps_bind _ store_grows_trans); [| intros ?; cbv beta]
    | match goal with
      | |- keeps _ (if ?b then _ else _) => destruct b
      | |- keeps _ (match ?x with _ => _ end) => destruct x
      end ].

Lemma store_grows_watcher_iteration page_after solve_answer key fuel cur :
  keeps store_grows (watcher_iteration page_after solve_answer key fuel cur).
Proof. unfold watcher_iteration, page_reload. store_grows_tac. Qed.

Lemma store_grows_watcher_loop page_after solve_answer key fuel :
  forall passes cur, keeps store_grows (watcher_loop page_after solve_answer key passes fuel cur).
Proof.
  induction passes as [| passes IH]; intros cur; cbn [watcher_loop].
  - apply (keeps_db_fixed _ store_grows_db), db_fixed_ret.
  - apply (keeps_bind _ store_grows_trans);
      [apply store_grows_watcher_iteration | intros; apply IH].
Qed.

Lemma store_grows_startTicketWatcher page_after solve_answer key passes fuel :
  keeps store_grows (startTicketWatcher page_after solve_answer key passes fuel).
Proof.
  unfold startTicketWatcher. store_grows_tac. apply store_grows_watcher_loop.
Qed.

(** ** Pre/postcondition reasoning *)

Lemma hoare_ret {A} (P : World -> Prop) (a : A) (Q : A -> World -> Prop) :
  (forall w, P w -> Q a w) -> hoare P (ret a) Q.
Proof. intros H w Hw. apply H, Hw. Qed.

Lemma hoare_any {A} (P : World -> Prop) (m : M A) : hoare P m (fun _ _ => True).
Proof. intros w _. destruct (m w) as [[] ?]; exact I. Qed.

Lemma hoare_bind {A B} (P : World -> Prop) (m : M A) (k : A -> M B)
    (Q : A -> World -> Prop) (S : B -> World -> Prop) :
  hoare P m Q -> (forall a, hoare (Q a) (k a) S) -> hoare P (bind m k) S.
Proof.
  intros Hm Hk w Hw. unfold bind. cbv beta. specialize (Hm w Hw).
  destruct (m w) as [[a | e |] w1]; auto. apply Hk, Hm.
Qed.

Lemma hoare_pure {A} (p : Prop) (m : M A) (Q : A -> World -> Prop) :
  (p -> hoare (fun _ => True) m Q) -> hoare (fun _ => p) m Q.
Proof. intros H w Hp. apply (H Hp w I). Qed.

Lemma hoare_try_catch {A} (P : World -> Prop) (body : M A) (h : string -> M A)
    (Q : A -> World -> Prop) :
  hoare P body Q -> (forall e, hoare (fun _ => True) (h e) Q) ->
  hoare P (try_catch body h) Q.
Proof.
  intros Hb Hh w Hw. unfold try_catch. cbv beta. specialize (Hb w Hw).
  destruct (body w) as [[a | e |] w1]; auto. apply (Hh e w1 I).
Qed.

Lemma getTicketDetails_facts id page t :
  getTicketDetails id page = Some t -> ticketId t = id /\ (lat t = None <-> lng t = None).
Proof.
  unfold getTicketDetails. destruct (ticketCard page id) as [cf |]; [| discriminate].
  intros H. inversion H; subst; clear H. simpl. split; [reflexivity |].
  destruct (card_ocr cf); simpl; split; discriminate || reflexivity.
Qed.

Lemma getTicketSearchResponse_ok id page : response_ok id (getTicketSearchResponse id page).
Proof.
  unfold getTicketSearchResponse.
  assert (Hnone : forall res, res <> ACCESSIBLE -> response_ok id (mkResponse res None)).
  { intros res Hres. split; simpl.
    - split; [intros E; contradiction | intros E; exfalso; apply E; reflexivity].
    - discriminate. }
  destruct (bodyText page) as [[| c s] |]; try (apply Hnone; discriminate).
  destruct (captchaVisible page); [apply Hnone; discriminate |].
  destruct (includes _ TicketMessage.FAILED_CHALLENGE); [apply Hnone; discriminate |].
  destruct (_ || _); [apply Hnone; discriminate |].
  destruct (includes _ TicketMessage.NO_RESULTS); [apply Hnone; discriminate |].
  destruct (getTicketDetails id page) as [t |] eqn:E; [| apply Hnone; discriminate].
  split; simpl.
  - split; [discriminate | reflexivity].
  - intros t' H. inversion H; subst. apply (getTicketDetails_facts id page), E.
Qed.

Lemma hoare_submit page_after id P :
  hoare P (submit_and_classify page_after id) (fun r _ => response_ok id r).
Proof. intros w _. apply getTicketSearchResponse_ok. Qed.

Lemma hoare_try_solver page_after solve_answer key id :
  hoare (fun _ => True) (try_solver page_after solve_answer key id)
    (fun o _ => forall r, o = Some r -> response_ok id r).
Proof.
  unfold try_solver. destruct (truthy _); [| apply hoare_ret; discriminate].
  apply hoare_bind with (Q := fun _ _ => True); [apply hoare_any | intros solved].
  destruct solved; [| apply hoare_ret; discriminate].
  eapply hoare_bind; [apply hoare_submit | intros r].
  destruct (is_challenge r); apply hoare_ret; [discriminate |].
  intros w H r' E. inversion E; subst. exact H.
Qed.

Lemma hoare_challenge_loop page_after solve_answer key id :
  forall fuel n r, response_ok id r ->
  hoare (fun _ => True) (challenge_loop page_after solve_answer key fuel id n r)
    (fun r' _ => response_ok id r').
Proof.
  induction fuel as [| fuel IH]; intros n r Hr; cbn [challenge_loop];
    [apply hoare_ret; auto |].
  destruct (_ && _); [| apply hoare_ret; auto].
  apply hoare_bind with (Q := fun _ _ => True); [apply hoare_any | intros _].
  assert (Hretry : hoare (fun _ => True)
            (page_reload ;;; r <- submit_and_classify page_after id ;;
             challenge_loop page_after solve_answer key fuel id (S n) r)
            (fun r' _ => response_ok id r')).
  { apply hoare_bind with (Q := fun _ _ => True); [apply hoare_any | intros _].
    eapply hoare_bind; [apply hoare_submit | intros r'].
    cbv beta. apply hoare_pure. intros H. apply IH, H. }
  destruct (TicketSearchResult_eqb _ _); [exact Hretry |].
  eapply hoare_bind; [apply hoare_try_solver | intros brk].
  destruct brk as [r' |].
  - apply hoare_ret. intros w H. apply H. reflexivity.
  - intros w _. apply (Hretry w I).
Qed.

Lemma hoare_searchForTicket page_after solve_answer key id :
  hoare (fun _ => True) (searchForTicket page_after solve_answer key id)
    (fun r _ => response_ok id r).
Proof.
  unfold searchForTicket. eapply hoare_bind; [apply hoare_submit | intros r].
  cbv beta. apply hoare_pure. apply hoare_challenge_loop.
Qed.

Lemma hoare_await_ticket page_after solve_answer key id :
  forall fuel node,
  hoare (fun _ => True) (await_ticket page_after solve_answer key fuel id node)
    (fun o _ => forall t, o = Some t -> ticketId t = id).
Proof.
  induction fuel as [| fuel IH]; intros node; cbn [await_ticket]; [intros w _; exact I |].
  eapply hoare_bind; [apply hoare_searchForTicket | intros r].
  destruct (negb _).
  - apply hoare_ret. intros w [_ H] t E. apply (H t E).
  - apply hoare_bind with (Q := fun _ _ => True); [apply hoare_any | intros _].
    apply IH.
Qed.

Lemma adds_only_watcher_iteration page_after solve_answer key fuel cur :
  keeps (adds_only cur) (watcher_iteration page_after solve_answer key fuel cur).
Proof.
  unfold watcher_iteration, page_reload.
  pose proof (adds_only_db cur) as Hdb. pose proof (adds_only_trans cur) as Htr.
  apply (keeps_try_catch _ Htr); [| intros e].
  2:{ apply (keeps_bind _ Htr); [apply adds_only_updateScraperState | intros _].
      apply (keeps_db_fixed _ Hdb). db_fixed_tac. }
  apply (keeps_bind _ Htr); [apply (keeps_db_fixed _ Hdb), db_fixed_tell | intros _].
  apply (keeps_bind _ Htr); [apply adds_only_updateScraperState | intros _].
  apply (keeps_bind_dep _ Htr) with (P := fun o => forall t, o = Some t -> ticketId t = cur).
  - apply (keeps_db_fixed _ Hdb), db_fixed_await_ticket.
  - apply hoare_await_ticket.
  - intros o Ho. destruct o as [ft |].
    + apply (keeps_bind _ Htr); [| intros t].
      * rewrite <- (Ho ft eq_refl). apply adds_only_persistTicket.
      * apply (keeps_bind _ Htr); [apply adds_only_updateScraperState | intros _].
        apply (keeps_db_fixed _ Hdb). db_fixed_tac.
    + apply (keeps_bind _ Htr); [apply adds_only_updateScraperState | intros _].
      apply (keeps_db_fixed _ Hdb). db_fixed_tac.
Qed.

(** ** Outcome of one pass *)

Lemma hoare_conseq {A} (P : World -> Prop) (m : M A) (Q1 Q2 : A -> World -> Prop) :
  hoare P m Q1 -> (forall a w, Q1 a w -> Q2 a w) -> hoare P m Q2.
Proof.
  intros H Hq w Hw. specialize (H w Hw). destruct (m w) as [[a | e |] w1]; auto.
Qed.

Lemma hoare_db_fixed {A} (D : DB -> Prop) (m : M A) :
  db_fixed m -> hoare (fun w => D (w_db w)) m (fun _ w => D (w_db w)).
Proof.
  intros Hm w Hw. specialize (Hm w). destruct (m w) as [[a | e |] w1]; simpl in *; auto.
  rewrite Hm. exact Hw.
Qed.

Lemma hoare_updateScraperState (P : World -> Prop) l s :
  hoare P (updateScraperState l s)
    (fun _ w' => exists st0, scraperStateRow (w_db w') = Some (apply_scraper_update st0 l s)).
Proof.
  intros w _. unfold updateScraperState, bind, get_db, put_db, throw.
  destruct (scraperStateRow (w_db w)) as [st |]; simpl; eauto.
Qed.

Ltac hoare_db_chain D :=
  repeat (apply hoare_bind with (Q := fun _ w => D (w_db w));
          [apply hoare_db_fixed; db_fixed_tac | intros ?; cbv beta]).

Lemma hoare_watcher_body page_after solve_answer key fuel cur :
  hoare (fun _ => True)
    (page_reload ;;;
     updateScraperState None (Some (sapp "checking " cur)) ;;;
     foundTicket <- await_ticket page_after solve_answer key fuel cur BACKOFF_LIST ;;
     match foundTicket with
     | None =>
         updateScraperState None (Some "no_results") ;;;
         sleep 2000 ;;;
         ret (incrementTicketId cur)
     | Some ft =>
         t <- persistTicket ft ;;
         updateScraperState (Some cur) (Some "ok") ;;;
         now <- get_now ;;
         let tenMinutesAgo := now - 10 * 60 * 1000 in
         (if date_ge (timestamp t) tenMinutesAgo
          then tell (EvLog "Broadcasted to SSE clients")
          else tell (EvLog "Ticket timestamp is older than 10 minutes, skipping SSE broadcast")) ;;;
         let nextTicketId := incrementTicketId cur in
         sleep 2000 ;;;
         ret nextTicketId
     end)
    (fun n w' => n = incrementTicketId cur /\ pass_done_db cur (w_db w')).
Proof.
  apply hoare_bind with (Q := fun _ _ => True); [apply hoare_any | intros _].
  apply hoare_bind with (Q := fun _ _ => True); [apply hoare_any | intros _].
  apply hoare_bind with (Q := fun _ _ => True); [apply hoare_any | intros o].
  pose (D := pass_done_db cur).
  destruct o as [ft |].
  - apply hoare_bind with (Q := fun _ _ => True); [apply hoare_any | intros t].
    apply hoare_bind with (Q := fun _ w => D (w_db w)).
    { eapply hoare_conseq; [apply hoare_updateScraperState |].
      intros _ w [st0 E]. eexists. split; [exact E |]. right. simpl.
      split; [reflexivity |]. intros Hne. unfold truthy.
      destruct (String.eqb_spec cur ""); [contradiction | reflexivity]. }
    intros _. hoare_db_chain D. apply hoare_ret. auto.
  - apply hoare_bind with (Q := fun _ w => D (w_db w)).
    { eapply hoare_conseq; [apply hoare_updateScraperState |].
      intros _ w [st0 E]. eexists. split; [exact E |]. left. reflexivity. }
    intros _. hoare_db_chain D. apply hoare_ret. auto.
Qed.

Lemma try_catch_error_cases {A} (body : M A) (cur : A) (Q : A -> World -> Prop) w :
  hoare (fun _ => True) body Q -> keeps store_grows body ->
  match try_catch body (fun _ => updateScraperState None (Some "error") ;;; sleep 5000 ;;; ret cur) w with
  | (Ok n, w') =>
      Q n w' \/
      (n = cur /\ exists st, scraperStateRow (w_db w') = Some st /\ status st = "error")
  | (Thrown _, _) => scraperStateRow (w_db w) = None
  | (Pending, _) => True
  end.
Proof.
  intros Hh Hk. unfold try_catch. cbv beta. specialize (Hh w I). specialize (Hk w).
  destruct (body w) as [[a | e |] w1]; simpl in *; auto.
  destruct Hk as [_ [_ Hrow]].
  unfold updateScraperState, get_db, put_db, throw, sleep, ret, bind. cbv beta.
  destruct (scraperStateRow (w_db w1)) as [st |] eqn:E1; simpl.
  - right. split; [reflexivity |]. eexists. split; reflexivity.
  - destruct (scraperStateRow (w_db w)) as [st |] eqn:E; [| reflexivity].
    destruct (Hrow st eq_refl) as [st' [E' _]]. congruence.
Qed.

Lemma watcher_iteration_cases page_after solve_answer key fuel cur w :
  match watcher_iteration page_after solve_answer key fuel cur w with
  | (Ok n, w') =>
      (n = incrementTicketId cur /\ pass_done_db cur (w_db w')) \/
      (n = cur /\ exists st, scraperStateRow (w_db w') = Some st /\ status st = "error")
  | (Thrown _, _) => scraperStateRow (w_db w) = None
  | (Pending, _) => True
  end.
Proof.
  unfold watcher_iteration.
  apply (try_catch_error_cases _ _ (fun n w' => n = incrementTicketId cur /\ pass_done_db cur (w_db w'))).
  - apply hoare_watcher_body.
  - unfold page_reload. store_grows_tac.
Qed.

Lemma watcher_loop_no_throw page_after solve_answer key fuel :
  forall passes cur w, scraperStateRow (w_db w) <> None ->
  match fst (watcher_loop page_after solve_answer key passes fuel cur w) with
  | Thrown _ => False
  | _ => True
  end.
Proof.
  induction passes as [| passes IH]; intros cur w Hw; cbn [watcher_loop]; [exact I |].
  pose proof (watcher_iteration_cases page_after solve_answer key fuel cur w) as C.
  unfold bind. cbv beta.
  destruct (watcher_iteration page_after solve_answer key fuel cur w) as [[n | e |] w1]; simpl.
  - apply IH. destruct C as [[_ [st [E _]]] | [_ [st [E _]]]]; congruence.
  - contradiction.
  - exact I.
Qed.

(** ** One search episode *)

Lemma spec_resolution_counts id c n r l rf :
  spec_resolution id c n r l rf ->
  (length (probes l) <= 2 * (5 - n))%nat /\ (solver_calls l <= 5 - n)%nat /\
  (reloads l <= 5 - n)%nat /\ (attempts l <= 5 - n)%nat /\
  Forall (fun i => i = id) (probes l).
Proof.
  induction 1 as [n r H | n r r' l rf H1 H2 H3 IH | n r r' l rf H1 H2 H3 H4 IH
                 | n r r' l rf H1 H2 H3 H4 IH | n r r' H1 H2 H3 H4
                 | n r r' r'' l rf H1 H2 H3 H4 H5 IH];
    try destruct IH as (A1 & A2 & A3 & A4 & A5);
    unfold probes, solver_calls, reloads, attempts in *; cbn [flat_map app length];
    repeat split; try lia; repeat constructor; assumption.
Qed.

(** ** Ticket persistence *)

Lemma find_ticket_app id l1 l2 :
  find_ticket id (l1 ++ l2) =
  match find_ticket id l1 with Some t => Some t | None => find_ticket id l2 end.
Proof.
  unfold find_ticket. induction l1 as [| t l1 IH]; simpl; [reflexivity |].
  destruct (String.eqb (ticketId t) id); [reflexivity | exact IH].
Qed.

Lemma find_ticket_id id rows t : find_ticket id rows = Some t -> ticketId t = id.
Proof. unfold find_ticket. intros H. apply find_some in H as [_ H]. apply String.eqb_eq, H. Qed.

Lemma nodup_all_equal (l : list string) (c : string) :
  NoDup l -> Forall (fun x => x = c) l -> (length l <= 1)%nat.
Proof.
  intros Hnd Hf. destruct l as [| a [| b l]]; simpl; try lia.
  inversion Hf as [| ? ? Ha Hf']; subst. inversion Hf'; subst.
  inversion Hnd; subst. exfalso. match goal with H : ~ In _ _ |- _ => apply H end. left. reflexivity.
Qed.

(** ** Extra properties of the watcher *)

(** Extra: over any run of [startTicketWatcher] (any pages, solver
    answers, key, number of passes and fuel, and whatever its outcome),
    ticket rows are only appended, never removed or changed; ticket ids
    that were unique stay unique; the cursor row exists at the end; and a
    cursor row present at the start is still there with the same id. *)
Theorem startTicketWatcher_store_invariant page_after solve_answer key passes fuel w :
  let w' := snd (startTicketWatcher page_after solve_answer key passes fuel w) in
  (exists added, ticketRows (w_db w') = ticketRows (w_db w) ++ added) /\
  (NoDup (ticket_ids (w_db w)) -> NoDup (ticket_ids (w_db w'))) /\
  (exists st', scraperStateRow (w_db w') = Some st') /\
  (forall st, scraperStateRow (w_db w) = Some st ->
     exists st', scraperStateRow (w_db w') = Some st' /\ ss_id st' = ss_id st).
Proof.
  intros w'. pose proof (store_grows_startTicketWatcher page_after solve_answer key passes fuel w)
    as [Ha [Hn Hs]].
  split; [exact Ha |]. split; [exact Hn |]. split; [| exact Hs].
  destruct (getOrCreateScraperState_run w) as [st [w1 [Hg [_ [Hrow _]]]]].
  unfold w', startTicketWatcher. rewrite (bind_ok _ _ _ _ _ Hg). cbv beta.
  assert (Ht : keeps store_grows
                 (tell EvNavigate ;;; watcher_loop page_after solve_answer key passes fuel
                                        (lastCheckedId st))).
  { store_grows_tac. apply store_grows_watcher_loop. }
  destruct (Ht w1) as [_ [_ Hs1]]. destruct (Hs1 st Hrow) as [st' [E _]]. eauto.
Qed.

Lemma startTicketWatcher_store_invariant_witness :
  NoDup (ticket_ids (cursor_db "cab100" [])) /\
  NoDup (ticket_ids (w_db (snd (startTicketWatcher (fun _ id => card_page id 0) (fun _ => true)
                                  "key" 2 3 (start_world (cursor_db "cab100" []) 0))))).
Proof.
  split; [simpl; constructor |].
  apply (proj1 (proj2 (startTicketWatcher_store_invariant (fun _ id => card_page id 0)
                         (fun _ => true) "key" 2 3 (start_world (cursor_db "cab100" []) 0)))).
  simpl. constructor.
Defined.

(** Extra: a pass of the watcher for id [cur] stores at most one new
    ticket, and only one whose id is [cur], provided the stored ids are
    unique (the primary key makes them so); existing rows are kept as they
    are. *)
Theorem watcher_iteration_adds_current page_after solve_answer key fuel cur w :
  NoDup (ticket_ids (w_db w)) ->
  exists added,
    ticketRows (w_db (snd (watcher_iteration page_after solve_answer key fuel cur w)))
      = ticketRows (w_db w) ++ added /\
    Forall (fun t => ticketId t = cur) added /\ (length added <= 1)%nat.
Proof.
  intros Hnd.
  destruct (adds_only_watcher_iteration page_after solve_answer key fuel cur w) as [added [Ha Hf]].
  destruct (store_grows_watcher_iteration page_after solve_answer key fuel cur w) as [_ [Hn _]].
  exists added. split; [exact Ha |]. split; [exact Hf |].
  specialize (Hn Hnd). unfold ticket_ids in Hn. rewrite Ha, map_app in Hn.
  apply NoDup_app_remove_l in Hn. rewrite <- (length_map ticketId).
  apply (nodup_all_equal _ cur Hn). apply Forall_map, Hf.
Qed.

Lemma watcher_iteration_adds_current_witness :
  NoDup (ticket_ids (cursor_db "cab100" [sample_ticket "cab099" 0])) /\
  exists added,
    ticketRows (w_db (snd (watcher_iteration (fun _ id => card_page id 0) (fun _ => true) "key"
                             3 "cab100" (start_world (cursor_db "cab100" [sample_ticket "cab099" 0]) 0))))
      = [sample_ticket "cab099" 0] ++ added /\
    Forall (fun t => ticketId t = "cab100") added /\ (length added <= 1)%nat.
Proof.
  split; [vm_compute; repeat constructor; simpl; intuition discriminate |].
  apply (watcher_iteration_adds_current (fun _ id => card_page id 0) (fun _ => true) "key" 3 "cab100"
           (start_world (cursor_db "cab100" [sample_ticket "cab099" 0]) 0)).
  vm_compute. repeat constructor. simpl. intuition discriminate.
Defined.

(** Extra: how a pass ends.  Normally it moves on to
    [incrementTicketId cur], with the cursor row's status [no_results]
    (nothing found) or [ok] and, for a non-empty id, [lastCheckedId = cur]
    (ticket stored); when an error is caught it stays on [cur] with status
    [error]; it throws only if the cursor row was missing when it began. *)
Theorem watcher_iteration_outcome page_after solve_answer key fuel cur w :
  match watcher_iteration page_after solve_answer key fuel cur w with
  | (Ok n, w') =>
      (n = incrementTicketId cur /\
       exists st, scraperStateRow (w_db w') = Some st /\
         (status st = "no_results" \/
          (status st = "ok" /\ (cur <> "" -> lastCheckedId st = cur)))) \/
      (n = cur /\ exists st, scraperStateRow (w_db w') = Some st /\ status st = "error")
  | (Thrown _, _) => scraperStateRow (w_db w) = None
  | (Pending, _) => True
  end.
Proof. exact (watcher_iteration_cases page_after solve_answer key fuel cur w). Qed.

(** Extra: once the cursor row exists (it is created before the loop),
    the outer loop of [startTicketWatcher] never ends in a thrown error,
    for any number of passes: an error in a pass is caught, and the catch
    handler's own update cannot fail because no step removes the row. *)
Theorem watcher_loop_never_throws page_after solve_answer key passes fuel cur w :
  scraperStateRow (w_db w) <> None ->
  match fst (watcher_loop page_after solve_answer key passes fuel cur w) with
  | Thrown _ => False
  | _ => True
  end.
Proof. apply watcher_loop_no_throw. Qed.

Lemma watcher_loop_never_throws_witness :
  match fst (watcher_loop (fun _ id => card_page id 0) (fun _ => true) "key" 3 2 "cab100"
               (start_world (cursor_db "cab100" []) 0)) with
  | Thrown _ => False
  | _ => True
  end.
Proof.
  apply (watcher_loop_never_throws (fun _ id => card_page id 0) (fun _ => true) "key" 3 2 "cab100"
           (start_world (cursor_db "cab100" []) 0)).
  simpl. discriminate.
Defined.

(** Extra: whatever its outcome, one [searchForTicket] call only appends to
    the trace; it submits searches only for the requested id, at most 11
    times, and makes at most 5 challenge attempts, at most 5 CAPTCHA-solver
    calls and at most 5 page reloads. *)
Theorem searchForTicket_action_bounds page_after solve_answer key id w :
  exists l,
    w_trace (snd (searchForTicket page_after solve_answer key id w)) = w_trace w ++ l /\
    Forall (fun i => i = id) (probes l) /\
    (length (probes l) <= 11)%nat /\
    (attempts l <= 5)%nat /\ (solver_calls l <= 5)%nat /\ (reloads l <= 5)%nat.
Proof.
  destruct (searchForTicket_run page_after solve_answer key id w) as [r0 [l [rf [w' [Hr [Ht Hs]]]]]].
  exists (EvSearch id r0 :: l). rewrite Hr. split; [exact Ht |].
  destruct (spec_resolution_counts _ _ _ _ _ _ Hs) as (A1 & A2 & A3 & A4 & A5).
  unfold probes, solver_calls, reloads, attempts in *; cbn [flat_map app length].
  split; [constructor; [reflexivity | exact A5] |]. lia.
Qed.

(** Extra: the classifier returns a ticket exactly when the outcome is
    [ACCESSIBLE]; that ticket carries the searched id, and has both
    coordinates or neither. *)
Theorem getTicketSearchResponse_ticket_consistent id page :
  (result (getTicketSearchResponse id page) = ACCESSIBLE <->
   ticket (getTicketSearchResponse id page) <> None) /\
  (forall t, ticket (getTicketSearchResponse id page) = Some t ->
     ticketId t = id /\ (lat t = None <-> lng t = None)).
Proof. exact (getTicketSearchResponse_ok id page). Qed.

Lemma apply_scraper_update_twice st l1 s1 l2 s2 :
  apply_scraper_update (apply_scraper_update st l1 s1) l2 s2 =
  apply_scraper_update st (later_truthy l2 l1) (later_truthy s2 s1).
Proof.
  unfold apply_scraper_update, later_truthy.
  destruct l1 as [v1 |], l2 as [v2 |], s1 as [u1 |], s2 as [u2 |];
    try change (truthy None) with false; cbv beta iota;
    repeat (match goal with
            | |- context [truthy (Some ?x)] =>
                let E := fresh "E" in destruct (truthy (Some x)) eqn:E
            end; cbv beta iota;
            repeat match goal with H : truthy _ = _ |- _ => rewrite H end;
            cbv beta iota); reflexivity.
Qed.

(** Extra: two successive cursor updates act as one update whose fields
    are the later truthy values, falling back to the earlier ones; both
    fail alike when the cursor row is missing. *)
Theorem updateScraperState_compose l1 s1 l2 s2 w :
  (updateScraperState l1 s1 ;;; updateScraperState l2 s2) w =
  updateScraperState (later_truthy l2 l1) (later_truthy s2 s1) w.
Proof.
  unfold updateScraperState, get_db, put_db, throw, bind. cbv beta.
  destruct (scraperStateRow (w_db w)) as [st |]; simpl; [| reflexivity].
  rewrite apply_scraper_update_twice. reflexivity.
Qed.

(** Extra: the seed script and the watcher's start-up agree: from any
    store, seeding leaves exactly the store [getOrCreateScraperState]
    leaves, so a later start-up reads the row it would have created; both
    are idempotent. *)
Theorem seed_matches_getOrCreate w :
  w_db (snd (seed_main w)) = w_db (snd (getOrCreateScraperState w)) /\
  fst (getOrCreateScraperState (snd (seed_main w))) = fst (getOrCreateScraperState w) /\
  w_db (snd (getOrCreateScraperState (snd (seed_main w)))) = w_db (snd (seed_main w)) /\
  w_db (snd ((seed_main ;;; seed_main) w)) = w_db (snd (seed_main w)) /\
  (getOrCreateScraperState ;;; getOrCreateScraperState) w = getOrCreateScraperState w.
Proof.
  unfold seed_main, getOrCreateScraperState, tell, get_db, put_db, ret, bind. cbv beta.
  destruct (scraperStateRow (w_db w)) eqn:E; simpl; repeat (rewrite E; simpl);
    repeat split; reflexivity.
Qed.

(** Extra: persisting a found ticket (find by id, create when absent).
    When a record with the ticket's id is stored, that record is returned
    as it is and the store is untouched.  Otherwise a ticket whose timestamp
    is an Invalid Date is rejected by [create], with the store untouched;
    any other ticket is appended and returned, a later lookup of its id
    finds it, and lookups of other ids and the cursor row are unchanged. *)
Theorem persistTicket_roundtrip t w :
  match find_ticket (ticketId t) (ticketRows (w_db w)) with
  | Some t0 => persistTicket t w = (Ok t0, w) /\ ticketId t0 = ticketId t
  | None =>
      match timestamp t with
      | InvalidDate => exists e, persistTicket t w = (Thrown e, w)
      | ValidDate _ =>
          exists w',
            persistTicket t w = (Ok t, w') /\
            ticketRows (w_db w') = ticketRows (w_db w) ++ [t] /\
            scraperStateRow (w_db w') = scraperStateRow (w_db w) /\
            find_ticket (ticketId t) (ticketRows (w_db w')) = Some t /\
            (forall id, id <> ticketId t ->
               find_ticket id (ticketRows (w_db w')) = find_ticket id (ticketRows (w_db w)))
      end
  end.
Proof.
  unfold persistTicket, findUniqueTicket, createTicket, get_db, put_db, ret, throw, bind.
  cbv beta. destruct (find_ticket (ticketId t) (ticketRows (w_db w))) as [t0 |] eqn:E.
  - split; [reflexivity | apply (find_ticket_id _ _ _ E)].
  - destruct (timestamp t) as [ms |]; [| eexists; reflexivity].
    simpl. rewrite E. eexists. split; [reflexivity |]. simpl.
    assert (Hf : forall id, find_ticket id (ticketRows (w_db w) ++ [t]) =
              match find_ticket id (ticketRows (w_db w)) with
              | Some x => Some x
              | None => if String.eqb (ticketId t) id then Some t else None
              end).
    { intros id. rewrite find_ticket_app. reflexivity. }
    split; [reflexivity |]. split; [reflexivity |].
    split; [rewrite Hf, E, String.eqb_refl; reflexivity |].
    intros id Hne. rewrite Hf.
    destruct (find_ticket id (ticketRows (w_db w))); [reflexivity |].
    destruct (String.eqb_spec (ticketId t) id); [congruence | reflexivity].
Qed.
